(** * betterpath: the in-memory file system and the read-only wrapper

    A shallow embedding of [bp/memory.py], [bp/generic.py] and
    [bp/readonly.py], and the properties of the path contract that the
    specification states about them.

    Conventions of the embedding.
    - A Python tuple of segments is a [list string]; a byte string is a
      [list byte].
    - The dictionaries [_store], [_uids], [_links] are [gmap]s and the set
      [_dirs] is a [gset].
    - A method that mutates the store is a function
      [MemoryFS -> result A * MemoryFS]: the store after the call is returned
      also when the call raises, because a Python exception does not undo the
      mutations made before it.  A method that only reads is a function of
      the store.
    - The development follows one [MemoryFS] object.  The attribute [_fs] of
      a [MemoryPath] is a reference to that object, so a path value is
      identified by its [_path]; this is what the equality and hash that
      [attr.s] generates compare for the path values of one store. *)

From Equations Require Import Equations.
From stdpp Require Import gmap strings list fin_maps fin_sets.

Local Open Scope string_scope.
Local Open Scope list_scope.
Local Open Scope nat_scope.

(** ** Data *)

Abbreviation location := (list string).
Abbreviation bytes := (list Byte.byte).

Inductive errno := EEXIST | ENOENT.

(** The exceptions the modelled code raises.  [PathError_message p] is
    [PathError("{0} already exists.".format(p))] of [MemoryFS.create];
    [PathError e p] is [PathError(e, p)]; [KeyError] is what [set.remove]
    raises on a missing element; [ValueError] is what [BytesIO] raises on a
    closed file; [Exception msg] is the bare [Exception(msg)]. *)
Inductive exn :=
| PathError_message (path : location)
| PathError (e : errno) (path : location)
| UnlistableError
| KeyError (key : location)
| ValueError
| Exception (msg : string).

Inductive result (A : Type) :=
| Return (a : A)
| Raise (e : exn).
Arguments Return {A} a.
Arguments Raise {A} e.

(** The error kinds of the specification, as predicates on exceptions. *)
Definition AlreadyExists (e : exn) : Prop :=
  match e with
  | PathError_message _ | PathError EEXIST _ => True
  | _ => False
  end.

Definition NotFound (e : exn) : Prop :=
  match e with PathError ENOENT _ => True | _ => False end.

Definition WriteDenied (e : exn) : Prop := e = Exception "Path is read-only".

(** [t[:-1]] and [t[-1]] on tuples.  [t[-1]] raises on the empty tuple; the
    model uses it only behind a length test, as the code does. *)
Definition but_last {A} (t : list A) : list A := take (length t - 1) t.
Definition last_segment (t : location) : string := List.last t "".

(** [sep.join(l)]. *)
Fixpoint join (sep : string) (l : list string) : string :=
  match l with
  | [] => ""
  | [x] => x
  | x :: rest => x +:+ sep +:+ join sep rest
  end.

(** [@attr.s(hash=True) class MemoryPath]: the location within the store. *)
Record MemoryPath := mkMemoryPath { _path : location }.

Global Instance MemoryPath_eq_dec : EqDecision MemoryPath.
Proof. solve_decision. Defined.

Global Instance MemoryPath_countable : Countable MemoryPath.
Proof.
  apply (inj_countable' _path mkMemoryPath). by intros [].
Defined.

(** [class MemoryFS]: [__init__] makes the four containers empty. *)
Record MemoryFS := mkMemoryFS {
  _store : gmap location bytes;
  _dirs : gset location;
  _uids : gmap location (option Z);
  _links : gmap MemoryPath MemoryPath
}.

Definition MemoryFS_init : MemoryFS :=
  {| _store := ∅; _dirs := ∅; _uids := ∅; _links := ∅ |}.

Definition set_store (f : gmap location bytes → gmap location bytes)
    (fs : MemoryFS) : MemoryFS :=
  {| _store := f (_store fs); _dirs := _dirs fs;
     _uids := _uids fs; _links := _links fs |}.

Definition set_dirs (f : gset location → gset location)
    (fs : MemoryFS) : MemoryFS :=
  {| _store := _store fs; _dirs := f (_dirs fs);
     _uids := _uids fs; _links := _links fs |}.

Definition set_links (f : gmap MemoryPath MemoryPath → gmap MemoryPath MemoryPath)
    (fs : MemoryFS) : MemoryFS :=
  {| _store := _store fs; _dirs := _dirs fs;
     _uids := _uids fs; _links := f (_links fs) |}.

(** [path in self._dirs] and [path in self._store]. *)
Definition in_dirs (path : location) (fs : MemoryFS) : bool :=
  bool_decide (path ∈ _dirs fs).
Definition in_store (path : location) (fs : MemoryFS) : bool :=
  bool_decide (is_Some (_store fs !! path)).

(** ** [class MemoryFile(BytesIO)]

    A buffer with a position, bound to a key of the store's content map.
    [_target] holds a reference to the dictionary [fs._store] itself, never a
    copy, so [close] writes into the store as it is when [close] runs. *)
Record MemoryFile := mkMemoryFile {
  _target : location;
  getvalue : bytes;
  tell : nat;
  closed : bool
}.

(** [MemoryFile(store, key, buf)]: [BytesIO.__init__(self, buf)] starts at
    position 0. *)
Definition MemoryFile_init (key : location) (buf : bytes) : MemoryFile :=
  {| _target := key; getvalue := buf; tell := 0; closed := false |}.

(** [BytesIO.write]: overwrite at the position, zero-filling a gap. *)
Definition MemoryFile_write (data : bytes) (f : MemoryFile) : result MemoryFile :=
  if closed f then Raise ValueError
  else
    let old := getvalue f in
    let padded := old ++ replicate (tell f - length old) Byte.x00 in
    Return {| _target := _target f;
              getvalue := take (tell f) padded ++ data
                          ++ drop (tell f + length data) old;
              tell := tell f + length data;
              closed := false |}.

(** [MemoryFile.close]: [getvalue()] raises on a closed file; otherwise the
    buffer is stored under the key and the file is closed. *)
Definition MemoryFile_close (f : MemoryFile) (fs : MemoryFS)
    : result MemoryFile * MemoryFS :=
  if closed f then (Raise ValueError, fs)
  else
    (Return {| _target := _target f; getvalue := getvalue f;
               tell := tell f; closed := true |},
     set_store <[_target f := getvalue f]> fs).

(** ** [class MemoryFS]: [create] and [open] *)

Definition MemoryFS_create (path : location) (fs : MemoryFS) : result MemoryFile :=
  if in_dirs path fs || in_store path fs
  then Raise (PathError_message path)
  else Return (MemoryFile_init path []).

Definition MemoryFS_open (path : location) (fs : MemoryFS) : result MemoryFile :=
  if in_dirs path fs then Raise (Exception "Directories cannot be opened")
  else
    match _store fs !! path with
    | Some content => Return (MemoryFile_init path content)
    | None => Return (MemoryFile_init path [])
    end.

(** ** [class MemoryPath]

    Left out, no property below being about them: [chown], [stat] and
    [getUserID], the timestamps (constant [0.0]), [changed] (a no-op),
    [segmentsFrom] and [walk].  The argument [ext] of [setContent], which
    the code ignores, is left out as well. *)

Definition sep : string := "/".

Definition format_memory_path (path : location) (sep : string) : string :=
  join sep ("/mem" :: path).

Definition path (self : MemoryPath) : string :=
  format_memory_path (_path self) sep.

(** *** Navigation *)

Definition parent (self : MemoryPath) : MemoryPath :=
  match _path self with
  | [] => self
  | _ :: _ => mkMemoryPath (but_last (_path self))
  end.

Definition child (self : MemoryPath) (name : string) : MemoryPath :=
  mkMemoryPath (_path self ++ [name]).

Definition descendant (self : MemoryPath) (segments : list string) : MemoryPath :=
  mkMemoryPath (_path self ++ segments).

(** [sibling = genericSibling]. *)
Definition sibling (self : MemoryPath) (segment : string) : MemoryPath :=
  child (parent self) segment.

(** *** Queries *)

Definition isdir (self : MemoryPath) (fs : MemoryFS) : bool :=
  in_dirs (_path self) fs.

Definition isfile (self : MemoryPath) (fs : MemoryFS) : bool :=
  in_store (_path self) fs.

Definition islink (self : MemoryPath) (fs : MemoryFS) : bool :=
  bool_decide (is_Some (_links fs !! self)).

Definition exists_ (self : MemoryPath) (fs : MemoryFS) : bool :=
  isdir self fs || isfile self fs.

Definition basename (self : MemoryPath) : string :=
  match _path self with
  | [] => ""
  | _ :: _ => last_segment (_path self)
  end.

Definition getsize (self : MemoryPath) (fs : MemoryFS) : result nat :=
  match _store fs !! _path self with
  | Some content => Return (length content)
  | None => Raise (Exception "Non-file has no size")
  end.

Definition realpath (self : MemoryPath) (fs : MemoryFS) : string :=
  path (default self (_links fs !! self)).

Definition dirname (self : MemoryPath) : string := path (parent self).

(** [listdir]: the iteration order of [chain(_dirs, _store.keys())] is the
    order of Python's set and dict; the model takes the order of
    [elements] and [map_to_list]. *)
Definition listdir (self : MemoryPath) (fs : MemoryFS) : result (list string) :=
  if negb (in_dirs (_path self) fs) then Raise UnlistableError
  else
    let i := elements (_dirs fs) ++ (map_to_list (_store fs)).*1 in
    let p := _path self in
    let l := length p + 1 in
    Return (last_segment <$> filter (λ t, but_last t = p ∧ length t = l) i).

(** [children = genericChildren]: [map(path.child, path.listdir())]. *)
Definition children (self : MemoryPath) (fs : MemoryFS) : result (list MemoryPath) :=
  match listdir self fs with
  | Return ks => Return (child self <$> ks)
  | Raise e => Raise e
  end.

(** [parents = genericParents]: the generator's loop carries [path] and
    [parent]; the list is the sequence of values it yields. *)
Equations? genericParents_loop (path parent_ : MemoryPath) : list MemoryPath
  by wf (length (_path parent_)
         + (if bool_decide (path = parent_) then 0 else 1)) lt :=
  genericParents_loop path parent_ with decide (path = parent_) := {
    | left _ => [];
    | right _ => parent_ :: genericParents_loop parent_ (parent parent_) }.
Proof.
  rewrite (bool_decide_eq_false_2 _ n).
  destruct parent_ as [[|s l]]; unfold parent; simpl.
  - lia.
  - unfold but_last. rewrite length_take. simpl. clear.
    destruct (bool_decide _); lia.
Qed.

Definition genericParents (path : MemoryPath) : list MemoryPath :=
  genericParents_loop path (parent path).

Definition parents := genericParents.

(** *** Writing and reading *)

Definition create (self : MemoryPath) (fs : MemoryFS) : result MemoryFile :=
  MemoryFS_create (_path self) fs.

Definition open (self : MemoryPath) (mode : string) (fs : MemoryFS)
    : result MemoryFile :=
  MemoryFS_open (_path self) fs.

Definition createDirectory (self : MemoryPath) (fs : MemoryFS)
    : result unit * MemoryFS :=
  if in_store (_path self) fs then (Raise (PathError EEXIST (_path self)), fs)
  else (Return tt, set_dirs (λ d, d ∪ {[_path self]}) fs).

Definition getContent (self : MemoryPath) (fs : MemoryFS) : result bytes :=
  match _store fs !! _path self with
  | Some content => Return content
  | None => Raise (PathError ENOENT (_path self))
  end.

Definition setContent (self : MemoryPath) (content : bytes) (fs : MemoryFS)
    : result unit * MemoryFS :=
  (Return tt, set_store <[_path self := content]> fs).

(** The [for] loop of [remove]: the body runs on each element in turn, on
    the store the previous one left; an exception ends the loop.  [None]
    means the recursion depth [fuel] was not enough. *)
Fixpoint for_each {A} (body : A → MemoryFS → option (result unit * MemoryFS))
    (l : list A) (fs : MemoryFS) : option (result unit * MemoryFS) :=
  match l with
  | [] => Some (Return tt, fs)
  | x :: l' =>
    match body x fs with
    | Some (Return _, fs') => for_each body l' fs'
    | other => other
    end
  end.

Fixpoint remove (fuel : nat) (self : MemoryPath) (fs : MemoryFS)
    : option (result unit * MemoryFS) :=
  match fuel with
  | 0 => None
  | S fuel' =>
    if isdir self fs then
      match children self fs with
      | Raise e => Some (Raise e, fs)
      | Return cs =>
        match for_each (remove fuel') cs fs with
        | Some (Return _, fs') =>
          if in_dirs (_path self) fs'
          then Some (Return tt, set_dirs (λ d, d ∖ {[_path self]}) fs')
          else Some (Raise (KeyError (_path self)), fs')
        | other => other
        end
      end
    else
      match _store fs !! _path self with
      | Some _ => Some (Return tt, set_store (delete (_path self)) fs)
      | None => Some (Raise (PathError ENOENT (_path self)), fs)
      end
  end.

(** *** Symlinks *)

Definition linkTo (self linkFilePath : MemoryPath) (fs : MemoryFS)
    : result unit * MemoryFS :=
  (Return tt, set_links <[linkFilePath := self]> fs).

Definition root : MemoryPath := mkMemoryPath [].

(** ** The path contract, as far as the read-only wrapper uses it

    [St] is the state of the backend, [P] its path values and [F] its file
    handles.  Reading methods are functions of the state; writing methods
    return the state they leave. *)
Class IFilePath (St P F : Type) := {
  fp_sep : P → string;
  fp_path : P → string;
  fp_listdir : P → St → result (list string);
  fp_parent : P → P;
  fp_child : P → string → P;
  fp_basename : P → string;
  fp_open : P → string → St → result F;
  fp_createDirectory : P → St → result unit * St;
  fp_getContent : P → St → result bytes;
  fp_setContent : P → bytes → St → result unit * St;
  fp_isdir : P → St → bool;
  fp_isfile : P → St → bool;
  fp_islink : P → St → bool;
  fp_exists : P → St → bool;
  fp_getsize : P → St → result nat
}.

Global Instance MemoryPath_IFilePath : IFilePath MemoryFS MemoryPath MemoryFile := {|
  fp_sep := λ _, sep;
  fp_path := path;
  fp_listdir := listdir;
  fp_parent := parent;
  fp_child := child;
  fp_basename := basename;
  fp_open := open;
  fp_createDirectory := createDirectory;
  fp_getContent := getContent;
  fp_setContent := setContent;
  fp_isdir := isdir;
  fp_isfile := isfile;
  fp_islink := islink;
  fp_exists := exists_;
  fp_getsize := getsize
|}.

(** ** [class ReadOnlyPath]

    The methods that forward timestamps, [changed], [realpath] and the
    comparison are left out. *)
Module ReadOnly.
Section ReadOnlyPath.
Context {St P F : Type} `{!IFilePath St P F}.

(** [bp.util.modeIsWriting] is not part of the modelled sources: it is a
    parameter of [open]. *)
Variable modeIsWriting : string → bool.

Record ReadOnlyPath := mkReadOnlyPath {
  _fp : P;
  sep : string;
  path : string
}.

(** [__init__]. *)
Definition wrap (fp : P) : ReadOnlyPath :=
  {| _fp := fp; sep := fp_sep fp; path := fp_path fp |}.

Definition listdir (self : ReadOnlyPath) (st : St) : result (list string) :=
  fp_listdir (_fp self) st.

Definition parent (self : ReadOnlyPath) : ReadOnlyPath :=
  wrap (fp_parent (_fp self)).

Definition child (self : ReadOnlyPath) (name : string) : ReadOnlyPath :=
  wrap (fp_child (_fp self) name).

Definition basename (self : ReadOnlyPath) : string :=
  fp_basename (_fp self).

Definition open (self : ReadOnlyPath) (mode : string) (st : St) : result F :=
  if modeIsWriting mode then Raise (Exception "Path is read-only")
  else fp_open (_fp self) mode st.

Definition createDirectory (self : ReadOnlyPath) (st : St) : result unit * St :=
  (Raise (Exception "Path is read-only"), st).

Definition getContent (self : ReadOnlyPath) (st : St) : result bytes :=
  fp_getContent (_fp self) st.

Definition setContent (self : ReadOnlyPath) (content : bytes) (st : St)
    : result unit * St :=
  (Raise (Exception "Path is read-only"), st).

Definition isdir (self : ReadOnlyPath) (st : St) : bool := fp_isdir (_fp self) st.
Definition isfile (self : ReadOnlyPath) (st : St) : bool := fp_isfile (_fp self) st.
Definition islink (self : ReadOnlyPath) (st : St) : bool := fp_islink (_fp self) st.
Definition exists_ (self : ReadOnlyPath) (st : St) : bool := fp_exists (_fp self) st.
Definition getsize (self : ReadOnlyPath) (st : St) : result nat :=
  fp_getsize (_fp self) st.
End ReadOnlyPath.
End ReadOnly.

(** ** Sequences of operations on one store

    A client of the library holds the store and the file handles it has
    opened.  [op] is a call of one of the public operations; [exec] runs it.
    [exec] is [None] when the call names a handle that was never returned, or
    when [fuel] bounds the recursion of [remove] too tightly. *)
Record World := mkWorld {
  fs : MemoryFS;
  files : list MemoryFile
}.

Inductive op :=
| Create (p : MemoryPath)
| Open (p : MemoryPath) (mode : string)
| Write (h : nat) (data : bytes)
| Close (h : nat)
| CreateDirectory (p : MemoryPath)
| SetContent (p : MemoryPath) (content : bytes)
| Remove (p : MemoryPath)
| LinkTo (self linkFilePath : MemoryPath).

Definition World_init : World := {| fs := MemoryFS_init; files := [] |}.

Definition new_file (w : World) (r : result MemoryFile) : result unit * World :=
  match r with
  | Return f => (Return tt, {| fs := fs w; files := files w ++ [f] |})
  | Raise e => (Raise e, w)
  end.

Definition with_fs (w : World) (r : result unit * MemoryFS) : result unit * World :=
  (r.1, {| fs := r.2; files := files w |}).

Definition exec (fuel : nat) (o : op) (w : World) : option (result unit * World) :=
  match o with
  | Create p => Some (new_file w (create p (fs w)))
  | Open p mode => Some (new_file w (open p mode (fs w)))
  | Write h data =>
    f ← files w !! h;
    Some match MemoryFile_write data f with
         | Return f' => (Return tt, {| fs := fs w; files := <[h := f']> (files w) |})
         | Raise e => (Raise e, w)
         end
  | Close h =>
    f ← files w !! h;
    Some match MemoryFile_close f (fs w) with
         | (Return f', fs') => (Return tt, {| fs := fs'; files := <[h := f']> (files w) |})
         | (Raise e, fs') => (Raise e, {| fs := fs'; files := files w |})
         end
  | CreateDirectory p => Some (with_fs w (createDirectory p (fs w)))
  | SetContent p content => Some (with_fs w (setContent p content (fs w)))
  | Remove p => with_fs w <$> remove fuel p (fs w)
  | LinkTo self linkFilePath => Some (with_fs w (linkTo self linkFilePath (fs w)))
  end.

(** The worlds a client reaches from a fresh store when every call it makes
    satisfies [allowed]. *)
Inductive reachable (allowed : op → World → Prop) : World → Prop :=
| reachable_init : reachable allowed World_init
| reachable_exec w fuel o r w' :
    reachable allowed w →
    allowed o w →
    exec fuel o w = Some (r, w') →
    reachable allowed w'.

Definition any_call (o : op) (w : World) : Prop := True.

(** A call that never stores content at a location that is a directory at the
    time of the call. *)
Definition no_content_on_directory (o : op) (w : World) : Prop :=
  match o with
  | SetContent p _ => isdir p (fs w) = false
  | Close h => ∀ f, files w !! h = Some f → in_dirs (_target f) (fs w) = false
  | _ => True
  end.

(** The invariant of the specification: no location is both a key of the
    content map and a member of the directory set. *)
Definition store_dirs_disjoint (fs : MemoryFS) : Prop :=
  ∀ l : location, ¬ (is_Some (_store fs !! l) ∧ l ∈ _dirs fs).

(** ** Notions used to reason about [remove] *)

(** The locations the store knows: directories and files. *)
Definition entries (fs : MemoryFS) : gset location :=
  _dirs fs ∪ dom (_store fs).

(** [fs'] has lost entries of [fs] and is otherwise the same. *)
Definition shrinks (fs fs' : MemoryFS) : Prop :=
  _dirs fs' ⊆ _dirs fs ∧ _store fs' ⊆ _store fs ∧
  _links fs' = _links fs ∧ _uids fs' = _uids fs.

(** The number of entries longer than [k] segments: a bound on the depth of
    the recursion of [remove] below a location of [k] segments. *)
Definition deeper (k : nat) (fs : MemoryFS) : nat :=
  size (filter (λ t : location, k < length t) (entries fs)).

(** The ancestors of a location as the specification lists them: the
    prefixes of the location, from the longest proper one down to the empty
    one. *)
Definition ancestors_spec (self : MemoryPath) : list MemoryPath :=
  (λ k, mkMemoryPath (take k (_path self)))
    <$> reverse (seq 0 (length (_path self))).

(** The scenario of [test_removeDirectory]: content at [root/foo] and at
    [root/bar/baz], written with [setContent] into the store [fs]. *)
Definition foo : MemoryPath := child root "foo".
Definition baz : MemoryPath := descendant root ["bar"; "baz"].
Definition with_foo_and_baz (hi bye : bytes) (fs : MemoryFS) : MemoryFS :=
  (setContent baz bye (setContent foo hi fs).2).2.

(** Three clients.  The first makes [root/a] a directory and then writes
    content to it; the second gets a handle on [root/a] from [create], makes
    [root/a] a directory, and closes the handle; the third makes the root a
    directory and writes content to [root/foo]. *)
Definition dir_a : MemoryPath := child root "a".

Definition setContent_on_directory : list op :=
  [CreateDirectory dir_a; SetContent dir_a [Byte.x58]].

Definition close_on_directory : list op :=
  [Create dir_a; CreateDirectory dir_a; Close 0].

Definition file_in_root : list op :=
  [CreateDirectory root; SetContent foo [Byte.x58]].

(** The world a client's calls lead to; a call [exec] has no result for is
    skipped. *)
Definition run (fuel : nat) (calls : list op) (w : World) : World :=
  foldl (λ w o, from_option snd w (exec fuel o w)) w calls.

(** Every call of the client is allowed and has a result. *)
Fixpoint all_allowed (allowed : op → World → Prop) (fuel : nat)
    (calls : list op) (w : World) : Prop :=
  match calls with
  | [] => True
  | o :: calls' =>
    allowed o w ∧ is_Some (exec fuel o w) ∧
    all_allowed allowed fuel calls' (from_option snd w (exec fuel o w))
  end.

(** * Properties *)

(** ** Membership tests *)

Lemma in_dirs_true path fs : in_dirs path fs = true ↔ path ∈ _dirs fs.
Proof. unfold in_dirs. apply bool_decide_eq_true. Qed.

Lemma in_dirs_false path fs : in_dirs path fs = false ↔ path ∉ _dirs fs.
Proof. unfold in_dirs. apply bool_decide_eq_false. Qed.

Lemma in_store_true path fs : in_store path fs = true ↔ is_Some (_store fs !! path).
Proof. unfold in_store. apply bool_decide_eq_true. Qed.

Lemma in_store_false path fs : in_store path fs = false ↔ _store fs !! path = None.
Proof.
  unfold in_store. rewrite bool_decide_eq_false. symmetry. apply eq_None_not_Some.
Qed.

(** ** Tuples *)

Lemma but_last_snoc {A} (l : list A) x : but_last (l ++ [x]) = l.
Proof.
  unfold but_last. rewrite length_app. simpl.
  replace (length l + 1 - 1) with (length l) by lia. apply take_app_length.
Qed.

Lemma last_segment_snoc l x : last_segment (l ++ [x]) = x.
Proof. unfold last_segment. apply List.last_last. Qed.

(** A tuple [t] with [t[:-1] == p] and [len(t) == len(p) + 1] is [p] with
    its last segment appended. *)
Lemma direct_child_inv (t p : location) :
  but_last t = p → length t = length p + 1 → t = p ++ [last_segment t].
Proof.
  intros Hp Hlen. destruct (decide (t = [])) as [->|Hne]; [simpl in Hlen; lia|].
  destruct (exists_last Hne) as (l & x & ->).
  rewrite but_last_snoc in Hp. subst. by rewrite last_segment_snoc.
Qed.

Lemma parent_root : parent root = root.
Proof. reflexivity. Qed.

Lemma parent_child p name : parent (child p name) = p.
Proof.
  destruct p as [l]. unfold parent, child. simpl.
  destruct (l ++ [name]) eqn:E.
  - by destruct l.
  - rewrite <- E. by rewrite but_last_snoc.
Qed.

(** ** [listdir] and [children] *)

Lemma elem_of_entries l fs :
  l ∈ entries fs ↔ l ∈ _dirs fs ∨ is_Some (_store fs !! l).
Proof. unfold entries. rewrite elem_of_union, elem_of_dom. done. Qed.

Lemma listdir_elem self fs ks name :
  listdir self fs = Return ks →
  name ∈ ks ↔ _path self ++ [name] ∈ entries fs.
Proof.
  unfold listdir. destruct (in_dirs _ _); simpl; [|done].
  intros [= <-]. rewrite elem_of_entries. split.
  - intros (t & -> & Ht)%list_elem_of_fmap_1.
    apply list_elem_of_filter in Ht as [[Hp Hlen] Ht].
    rewrite <- (direct_child_inv _ _ Hp Hlen).
    apply elem_of_app in Ht as [Ht|Ht].
    + left. by apply elem_of_elements.
    + right. apply list_elem_of_fmap_1 in Ht as ([k v] & -> & Hkv).
      apply elem_of_map_to_list in Hkv. by eexists.
  - intros H.
    apply (list_elem_of_fmap_2' last_segment _ (_path self ++ [name]));
      [|by rewrite last_segment_snoc].
    apply list_elem_of_filter. split.
    { rewrite but_last_snoc, length_app. done. }
    apply elem_of_app. destruct H as [H|[v Hv]].
    + left. by apply elem_of_elements.
    + right. apply (list_elem_of_fmap_2' fst _ (_path self ++ [name], v)); [|done].
      by apply elem_of_map_to_list.
Qed.

Lemma children_elem self fs cs c :
  children self fs = Return cs →
  c ∈ cs ↔ ∃ name, c = child self name ∧ _path c ∈ entries fs.
Proof.
  unfold children. destruct (listdir self fs) as [ks|] eqn:Hks; [|done].
  intros [= <-]. split.
  - intros (name & -> & Hname)%list_elem_of_fmap_1.
    exists name. split; [done|]. by apply (listdir_elem _ _ _ _ Hks).
  - intros (name & -> & Hname). apply list_elem_of_fmap_2.
    by apply (listdir_elem _ _ _ _ Hks).
Qed.

(** ** [remove]: what it leaves, and that it returns *)

Lemma shrinks_refl fs : shrinks fs fs.
Proof. by repeat split. Qed.

Lemma shrinks_trans fs1 fs2 fs3 : shrinks fs1 fs2 → shrinks fs2 fs3 → shrinks fs1 fs3.
Proof.
  intros (? & ? & ? & ?) (? & ? & ? & ?).
  repeat split; [by etrans | by etrans | congruence | congruence].
Qed.

Lemma shrinks_entries fs fs' : shrinks fs fs' → entries fs' ⊆ entries fs.
Proof.
  intros (Hd & Hs & _). unfold entries. apply subseteq_dom in Hs.
  by apply union_mono.
Qed.

Lemma for_each_shrinks {A} (body : A → MemoryFS → option (result unit * MemoryFS)) l :
  (∀ x fs r fs', body x fs = Some (r, fs') → shrinks fs fs') →
  ∀ fs r fs', for_each body l fs = Some (r, fs') → shrinks fs fs'.
Proof.
  intros Hbody. induction l as [|x l IH]; intros fs r fs' H; simpl in H.
  - simplify_eq. apply shrinks_refl.
  - destruct (body x fs) as [[[[]|e] fs1]|] eqn:Hx; [| |done].
    + eapply shrinks_trans; eauto.
    + simplify_eq. eauto.
Qed.

Lemma remove_shrinks fuel : ∀ self fs r fs',
  remove fuel self fs = Some (r, fs') → shrinks fs fs'.
Proof.
  induction fuel as [|fuel IH]; intros self fs r fs' H; simpl in H; [done|].
  destruct (isdir self fs).
  - destruct (children self fs) as [cs|e]; [|simplify_eq; apply shrinks_refl].
    destruct (for_each (remove fuel) cs fs) as [[[[]|e] fs1]|] eqn:Hloop; [| |done].
    + apply for_each_shrinks in Hloop; [|done].
      destruct (in_dirs _ _); simplify_eq; [|done].
      eapply shrinks_trans; [done|]. repeat split; simpl; [|done].
      by intros x [? _]%elem_of_difference.
    + simplify_eq. by apply for_each_shrinks in Hloop.
  - destruct (_store fs !! _path self); simplify_eq; [|apply shrinks_refl].
    repeat split; simpl; [done|apply delete_subseteq].
Qed.

Lemma for_each_ext {A} (b1 b2 : A → MemoryFS → option (result unit * MemoryFS)) l :
  (∀ x fs r, b1 x fs = Some r → b2 x fs = Some r) →
  ∀ fs r, for_each b1 l fs = Some r → for_each b2 l fs = Some r.
Proof.
  intros Hb. induction l as [|x l IH]; intros fs r H; simpl in *; [done|].
  destruct (b1 x fs) as [[[[]|e] fs1]|] eqn:Hx; [| |done];
    rewrite (Hb _ _ _ Hx); auto.
Qed.

(** More fuel does not change a result. *)
Lemma remove_fuel_S fuel : ∀ self fs r,
  remove fuel self fs = Some r → remove (S fuel) self fs = Some r.
Proof.
  induction fuel as [|fuel IH]; intros self fs r H; [done|].
  change (remove (S fuel) self fs) with
    (if isdir self fs then
       match children self fs with
       | Raise e => Some (Raise e, fs)
       | Return cs =>
         match for_each (remove fuel) cs fs with
         | Some (Return _, fs') =>
           if in_dirs (_path self) fs'
           then Some (Return tt, set_dirs (λ d, d ∖ {[_path self]}) fs')
           else Some (Raise (KeyError (_path self)), fs')
         | other => other
         end
       end
     else
       match _store fs !! _path self with
       | Some _ => Some (Return tt, set_store (delete (_path self)) fs)
       | None => Some (Raise (PathError ENOENT (_path self)), fs)
       end) in H.
  cbn [remove]. destruct (isdir self fs); [|done].
  destruct (children self fs) as [cs|e]; [|done].
  destruct (for_each (remove fuel) cs fs) as [r1|] eqn:Hloop; [|by destruct r].
  apply (for_each_ext _ (remove (S fuel))) in Hloop; [|done].
  cbn [remove] in Hloop. by rewrite Hloop.
Qed.

Lemma remove_fuel_mono fuel fuel' self fs r :
  fuel ≤ fuel' → remove fuel self fs = Some r → remove fuel' self fs = Some r.
Proof.
  induction 1 as [|m _ IH]; [done|]. intros H. by apply remove_fuel_S, IH.
Qed.

Lemma deeper_shrinks k fs fs' : shrinks fs fs' → deeper k fs' ≤ deeper k fs.
Proof.
  intros H%shrinks_entries. unfold deeper. apply subseteq_size.
  intros t. rewrite !elem_of_filter. intros [? ?]. split; [done|by apply H].
Qed.

Lemma deeper_entry k fs t :
  t ∈ entries fs → length t = k + 1 → deeper (k + 1) fs < deeper k fs.
Proof.
  intros Ht Hlen. unfold deeper. apply subset_size. split.
  - intros u. rewrite !elem_of_filter. intros [? ?]. split; [lia|done].
  - intros Hsub. specialize (Hsub t). rewrite !elem_of_filter in Hsub.
    destruct Hsub as [? _]; [split; [lia|done]|lia].
Qed.

Lemma for_each_is_Some {A} (body : A → MemoryFS → option (result unit * MemoryFS)) l fs0 :
  (∀ x fs r fs', body x fs = Some (r, fs') → shrinks fs fs') →
  (∀ x fs, x ∈ l → shrinks fs0 fs → is_Some (body x fs)) →
  ∀ fs, shrinks fs0 fs → is_Some (for_each body l fs).
Proof.
  intros Hshr. induction l as [|x l IH]; intros Htot fs Hfs; simpl; [by eexists|].
  destruct (Htot x fs) as [[[[]|e] fs1] Hx]; [by left|done| |]; rewrite Hx; [|by eexists].
  apply IH.
  - intros y fs' Hy. apply Htot. by right.
  - eapply shrinks_trans; eauto.
Qed.

(** [remove] returns: the recursion goes from a directory to an entry one
    segment longer, and it only deletes entries, so a depth beyond the number
    of longer entries is never reached. *)
Lemma remove_is_Some fuel : ∀ self fs,
  deeper (length (_path self)) fs < fuel → is_Some (remove fuel self fs).
Proof.
  induction fuel as [|fuel IH]; intros self fs Hfuel; [lia|]. simpl.
  destruct (isdir self fs).
  - destruct (children self fs) as [cs|e] eqn:Hcs; [|by eexists].
    destruct (for_each_is_Some (remove fuel) cs fs) with (fs := fs)
      as [[[[]|e] fs1] Hloop].
    + intros ????. apply remove_shrinks.
    + intros c fs1 Hc Hfs1. apply IH.
      apply (children_elem _ _ _ _ Hcs) in Hc as (name & -> & Hentry). simpl in *.
      rewrite length_app. simpl.
      pose proof (deeper_shrinks (length (_path self) + 1) _ _ Hfs1).
      pose proof (deeper_entry (length (_path self)) fs _ Hentry) as Hlt.
      rewrite length_app in Hlt. simpl in Hlt. specialize (Hlt eq_refl). lia.
    + apply shrinks_refl.
    + rewrite Hloop. destruct (in_dirs _ _); by eexists.
    + rewrite Hloop. by eexists.
  - destruct (_store fs !! _path self); by eexists.
Qed.

(** [remove] returns one result at every recursion depth beyond the bound. *)
Lemma remove_returns self fs :
  ∃ r, ∀ fuel, deeper (length (_path self)) fs < fuel → remove fuel self fs = Some r.
Proof.
  destruct (remove_is_Some (S (deeper (length (_path self)) fs)) self fs)
    as [r Hr]; [lia|].
  exists r. intros fuel Hfuel. eapply remove_fuel_mono; [|done]. lia.
Qed.

(** ** The root directory *)

(** C3, as the specification states it, fails: the root of a freshly created
    store is not a directory and does not exist. *)
Lemma C3_root_not_always_directory :
  ¬ (∀ fs, isdir root fs = true ∧ exists_ root fs = true).
Proof. intros H. by destruct (H MemoryFS_init). Qed.

(** C3 (amended): the root is a directory exactly when the empty location is
    in the directory set, and it exists exactly when the empty location is in
    the directory set or has content; on a freshly created store it is
    neither a directory nor existing, and [createDirectory] on the root of a
    fresh store makes it both. *)
Theorem C3_root_directory_iff_marked fs :
  (isdir root fs = true ↔ [] ∈ _dirs fs) ∧
  (exists_ root fs = true ↔ [] ∈ _dirs fs ∨ is_Some (_store fs !! [])) ∧
  isdir root MemoryFS_init = false ∧
  exists_ root MemoryFS_init = false ∧
  isdir root (createDirectory root MemoryFS_init).2 = true ∧
  exists_ root (createDirectory root MemoryFS_init).2 = true.
Proof.
  split_and!; try done.
  - apply in_dirs_true.
  - unfold exists_, isdir, isfile. simpl.
    rewrite orb_true_iff, in_dirs_true, in_store_true. done.
Qed.

(** ** [create] *)

(** [create] only builds a handle: the store is an argument it does not
    return, so a second call sees the store the first one saw. *)

(** C4, as the specification states it, fails: on a fresh store both calls of
    [create] at the same location succeed. *)
Lemma C4_second_create_succeeds :
  ¬ (∀ p fs f, create p fs = Return f →
       ∃ e, create p fs = Raise e ∧ AlreadyExists e).
Proof.
  intros H.
  destruct (H (child root "a") MemoryFS_init (MemoryFile_init ["a"] []) eq_refl)
    as (e & He & _).
  discriminate He.
Qed.

(** C4 (amended): when [create] at a location returns a handle, closing that
    handle writes the location into the content map, and [create] at the
    location then fails with [AlreadyExists]. *)
Theorem C4_create_close_create p fs f :
  create p fs = Return f →
  ∃ f' fs', MemoryFile_close f fs = (Return f', fs') ∧
    ∃ e, create p fs' = Raise e ∧ AlreadyExists e.
Proof.
  unfold create, MemoryFS_create.
  destruct (in_dirs _ _ || in_store _ _); intros [= <-].
  eexists _, _. split; [reflexivity|].
  exists (PathError_message (_path p)). split; [|done].
  unfold MemoryFS_create. simpl.
  replace (in_store _ _) with true; [by rewrite orb_true_r|].
  symmetry. apply in_store_true. simpl. rewrite lookup_insert_eq. by eexists.
Qed.

Lemma C4_create_close_create_witness :
  ∃ f' fs', MemoryFile_close (MemoryFile_init ["a"] []) MemoryFS_init = (Return f', fs') ∧
    ∃ e, create (child root "a") fs' = Raise e ∧ AlreadyExists e.
Proof.
  apply (C4_create_close_create (child root "a") MemoryFS_init). reflexivity.
Defined.

(** ** The read-only wrapper *)

(** For every backend, the wrapper's [setContent] raises and returns the
    state it was given. *)
Lemma ReadOnly_setContent_untouched `{IFilePath St P F} (fp : P) content (st : St) :
  ReadOnly.setContent (ReadOnly.wrap fp) content st
  = (Raise (Exception "Path is read-only"), st).
Proof. reflexivity. Qed.

(** C5: for a wrapped in-memory path whose location has content [X], the
    wrapper's [getContent] returns [X], its [setContent] raises the
    write-denied exception, and [getContent] on the wrapped path, in the
    store the failed [setContent] leaves, still returns [X]. *)
Theorem C5_readonly_reads_and_denies_writes (p : MemoryPath) fs X content :
  _store fs !! _path p = Some X →
  let ro := ReadOnly.wrap p in
  ReadOnly.getContent ro fs = Return X ∧
  (∃ e, (ReadOnly.setContent ro content fs).1 = Raise e ∧ WriteDenied e) ∧
  (ReadOnly.setContent ro content fs).2 = fs ∧
  getContent p (ReadOnly.setContent ro content fs).2 = Return X.
Proof.
  intros HX ro.
  assert (getContent p fs = Return X) as Hget.
  { unfold getContent. by rewrite HX. }
  split_and!; [done| |done|done].
  by eexists.
Qed.

Lemma C5_readonly_reads_and_denies_writes_witness :
  let p := child root "f" in
  let X := [Byte.x58] in
  let fs := (setContent p X MemoryFS_init).2 in
  let ro := ReadOnly.wrap p in
  ReadOnly.getContent ro fs = Return X ∧
  (∃ e, (ReadOnly.setContent ro [Byte.x59] fs).1 = Raise e ∧ WriteDenied e) ∧
  (ReadOnly.setContent ro [Byte.x59] fs).2 = fs ∧
  getContent p (ReadOnly.setContent ro [Byte.x59] fs).2 = Return X.
Proof.
  intros p X fs ro.
  apply (C5_readonly_reads_and_denies_writes p fs X [Byte.x59]).
  vm_compute. reflexivity.
Defined.

(** ** Symlinks *)

(** C6: after [a.linkTo(b)], [b] is a link, [b.realpath()] is the display
    path of [a], and [realpath] of a path value that is not a key of the link
    map is that path value's own display path. *)
Theorem C6_linkTo_realpath (a b : MemoryPath) fs :
  let fs' := (linkTo a b fs).2 in
  (linkTo a b fs).1 = Return tt ∧
  islink b fs' = true ∧
  realpath b fs' = path a ∧
  ∀ p, _links fs' !! p = None → realpath p fs' = path p.
Proof.
  simpl. split_and!; [done|..].
  - unfold islink. simpl. apply bool_decide_eq_true.
    rewrite lookup_insert_eq. by eexists.
  - unfold realpath. simpl. by rewrite lookup_insert_eq.
  - intros p Hp. unfold realpath. simpl. by rewrite Hp.
Qed.

(** ** Content *)

(** C7: [setContent] followed by [getContent] at the same path returns the
    bytes written, whatever they are. *)
Theorem C7_setContent_getContent (p : MemoryPath) (b : bytes) fs :
  (setContent p b fs).1 = Return tt ∧
  getContent p (setContent p b fs).2 = Return b.
Proof.
  split; [done|]. unfold getContent. simpl. by rewrite lookup_insert_eq.
Qed.

(** ** Directories *)

(** C8: [createDirectory] at a location with content raises [AlreadyExists]
    and leaves the store as it was; at a location without content it
    succeeds, and a second call succeeds as well, changes nothing more and
    leaves the location a directory. *)
Theorem C8_createDirectory (p : MemoryPath) fs :
  if isfile p fs
  then ∃ e, createDirectory p fs = (Raise e, fs) ∧ AlreadyExists e
  else ∃ fs1, createDirectory p fs = (Return tt, fs1) ∧
              isdir p fs1 = true ∧
              createDirectory p fs1 = (Return tt, fs1).
Proof.
  unfold isfile, createDirectory. destruct (in_store _ _) eqn:Hfile.
  - by eexists.
  - eexists. split; [done|]. split.
    + apply in_dirs_true. simpl. apply elem_of_union_r, elem_of_singleton_2. done.
    + replace (in_store _ _) with false by done. f_equal.
      unfold set_dirs. simpl. f_equal.
      rewrite <- (assoc_L (∪)). by rewrite (idemp_L (∪)).
Qed.

(** ** [open] and [close] *)

(** C10: [open] does not look at its mode.  At a location that is neither a
    directory nor a file it returns an empty handle for every mode, and
    closing that handle stores the empty content, so that the location is a
    file afterwards. *)
Theorem C10_open_ignores_mode (p : MemoryPath) (mode : string) fs :
  isdir p fs = false →
  isfile p fs = false →
  (∀ mode', open p mode' fs = open p mode fs) ∧
  ∃ f, open p mode fs = Return f ∧ getvalue f = [] ∧
    ∃ f' fs', MemoryFile_close f fs = (Return f', fs') ∧
      isfile p fs' = true ∧ getContent p fs' = Return [].
Proof.
  unfold isdir, isfile. intros Hdir Hfile%in_store_false.
  split; [done|].
  unfold open, MemoryFS_open. rewrite Hdir, Hfile.
  eexists. split; [done|]. split; [done|].
  eexists _, _. split; [reflexivity|]. simpl. split.
  - apply in_store_true. simpl. rewrite lookup_insert_eq. by eexists.
  - unfold getContent. simpl. by rewrite lookup_insert_eq.
Qed.

Lemma C10_open_ignores_mode_witness :
  let p := child root "f" in
  (∀ mode', open p mode' MemoryFS_init = open p "r" MemoryFS_init) ∧
  ∃ f, open p "r" MemoryFS_init = Return f ∧ getvalue f = [] ∧
    ∃ f' fs', MemoryFile_close f MemoryFS_init = (Return f', fs') ∧
      isfile p fs' = true ∧ getContent p fs' = Return [].
Proof.
  apply (C10_open_ignores_mode (child root "f") "r" MemoryFS_init); reflexivity.
Defined.

(** ** Ancestors *)

Lemma genericParents_root : genericParents root = [].
Proof. reflexivity. Qed.

(** One turn of the [while] loop. *)
Lemma genericParents_loop_eq path parent_ :
  genericParents_loop path parent_ =
  if decide (path = parent_) then []
  else parent_ :: genericParents_loop parent_ (parent parent_).
Proof.
  rewrite genericParents_loop_equation_1.
  destruct (decide (path = parent_)); reflexivity.
Qed.

Lemma genericParents_child p name :
  genericParents (child p name) = p :: genericParents p.
Proof.
  unfold genericParents. rewrite parent_child.
  rewrite genericParents_loop_eq.
  destruct (decide (child p name = p)) as [Heq|Hne]; [|done].
  exfalso. apply (f_equal (λ q, length (_path q))) in Heq.
  simpl in Heq. rewrite length_app in Heq. simpl in Heq. lia.
Qed.

Lemma ancestors_spec_child p name :
  ancestors_spec (child p name) = p :: ancestors_spec p.
Proof.
  destruct p as [l]. unfold ancestors_spec, child. simpl.
  rewrite length_app. simpl. rewrite Nat.add_1_r, seq_S, reverse_snoc. simpl.
  rewrite take_app_length. f_equal.
  apply list_fmap_ext. intros i k Hk. f_equal.
  apply take_app_le.
  apply list_elem_of_lookup_2, elem_of_reverse, elem_of_seq in Hk. lia.
Qed.

(** C9: [genericParents] returns, for every path value, the finite list of
    its ancestors from the immediate parent down to the root; for
    [root/a/b] that list is [[root/a; root]]; the root is its own parent and
    the parent of a child drops the last segment. *)
Theorem C9_ancestors (p : MemoryPath) :
  genericParents p = ancestors_spec p ∧
  length (genericParents p) = length (_path p) ∧
  genericParents (child (child root "a") "b") = [child root "a"; root] ∧
  parent root = root ∧
  (∀ q name, parent (child q name) = q).
Proof.
  assert (genericParents p = ancestors_spec p) as Heq.
  { destruct p as [l]. induction l as [|x l IH] using rev_ind; [done|].
    change (mkMemoryPath (l ++ [x])) with (child (mkMemoryPath l) x).
    by rewrite genericParents_child, ancestors_spec_child, IH. }
  split_and!; [done| |done|done|apply parent_child].
  rewrite Heq. unfold ancestors_spec.
  by rewrite length_fmap, length_reverse, length_seq.
Qed.

Lemma store_dirs_disjoint_shrinks fs fs' :
  shrinks fs fs' → store_dirs_disjoint fs → store_dirs_disjoint fs'.
Proof.
  intros (Hd & Hs & _) Hinv l [Hl1 Hl2]. apply (Hinv l). split.
  - by eapply lookup_weaken_is_Some.
  - by apply Hd.
Qed.

(** ** What a successful [remove] deletes

    On a store in which no location is both a file and a directory, a
    [remove] that returns leaves neither the path nor, for a directory, any of
    its direct children.  Deeper entries go with the directories that lead to
    them; an entry below a location that is no entry itself is not reached. *)

Lemma not_entry_exists self fs :
  _path self ∉ entries fs ↔ exists_ self fs = false.
Proof.
  unfold exists_, isdir, isfile. rewrite elem_of_entries, orb_false_iff.
  rewrite in_dirs_false, in_store_false, eq_None_not_Some. tauto.
Qed.

Lemma remove_self_gone fuel self fs fs' :
  store_dirs_disjoint fs →
  remove fuel self fs = Some (Return tt, fs') →
  _path self ∉ entries fs'.
Proof.
  intros Hinv H. destruct fuel as [|fuel]; [done|]. simpl in H.
  rewrite elem_of_entries. destruct (isdir self fs) eqn:Hdir.
  - apply in_dirs_true in Hdir.
    destruct (children self fs) as [cs|e]; [|done].
    destruct (for_each (remove fuel) cs fs) as [[[[]|e] fs1]|] eqn:Hloop;
      [|done|done].
    apply for_each_shrinks in Hloop as (_ & Hs & _); [|apply remove_shrinks].
    destruct (in_dirs _ _); simplify_eq/=. intros [Hd|Hf].
    + apply elem_of_difference in Hd as [_ Hd]. by apply Hd, elem_of_singleton.
    + apply (Hinv (_path self)). split; [|done]. by eapply lookup_weaken_is_Some.
  - apply in_dirs_false in Hdir.
    destruct (_store fs !! _path self); simplify_eq/=. intros [Hd|Hf]; [done|].
    rewrite lookup_delete_eq in Hf. by destruct Hf.
Qed.

Lemma for_each_remove_gone fuel cs : ∀ fs fs',
  store_dirs_disjoint fs →
  for_each (remove fuel) cs fs = Some (Return tt, fs') →
  ∀ c, c ∈ cs → _path c ∉ entries fs'.
Proof.
  induction cs as [|c0 cs IH]; intros fs fs' Hinv H c Hc; [by inv Hc|].
  simpl in H.
  destruct (remove fuel c0 fs) as [[[[]|e] fs1]|] eqn:Hc0; [|done|done].
  pose proof (remove_shrinks _ _ _ _ _ Hc0) as Hshr.
  apply elem_of_cons in Hc as [->|Hc].
  - apply remove_self_gone in Hc0; [|done].
    apply for_each_shrinks in H; [|apply remove_shrinks].
    intros Hin. by apply Hc0, (shrinks_entries _ _ H).
  - eapply IH; [|done..]. by eapply store_dirs_disjoint_shrinks.
Qed.

Lemma remove_directory_gone fuel self fs fs' :
  store_dirs_disjoint fs →
  isdir self fs = true →
  remove fuel self fs = Some (Return tt, fs') →
  exists_ self fs' = false ∧ ∀ name, exists_ (child self name) fs' = false.
Proof.
  intros Hinv Hdir H. split.
  { apply not_entry_exists. by eapply remove_self_gone. }
  intros name. apply not_entry_exists.
  destruct fuel as [|fuel]; [done|]. simpl in H. rewrite Hdir in H.
  destruct (children self fs) as [cs|e] eqn:Hcs; [|done].
  destruct (for_each (remove fuel) cs fs) as [[[[]|e] fs1]|] eqn:Hloop;
    [|done|done].
  assert (_path (child self name) ∉ entries fs1) as Hgone.
  { destruct (decide (_path (child self name) ∈ entries fs)) as [Hin|Hout].
    - eapply for_each_remove_gone; [done..|].
      apply (children_elem _ _ _ _ Hcs). by exists name.
    - apply for_each_shrinks in Hloop; [|apply remove_shrinks].
      intros Hin. by apply Hout, (shrinks_entries _ _ Hloop). }
  destruct (in_dirs _ _); simplify_eq/=.
  intros Hin. apply Hgone. revert Hin. rewrite !elem_of_entries. simpl.
  intros [[Hd _]%elem_of_difference|Hf]; [by left|by right].
Qed.

(** ** Removing the root *)

(** C2, as the specification states it, fails: on a fresh store the root is
    not a directory, so [remove] on the root takes the file branch and does
    not succeed, whatever the recursion depth allowed. *)
Lemma C2_remove_fresh_root_fails :
  let fs := with_foo_and_baz [Byte.x48; Byte.x69; Byte.x21]
              [Byte.x42; Byte.x79; Byte.x65; Byte.x21] MemoryFS_init in
  ¬ (∃ fuel fs', remove fuel root fs = Some (Return tt, fs') ∧
       exists_ root fs' = false ∧ exists_ foo fs' = false ∧
       exists_ baz fs' = false).
Proof.
  intros fs (fuel & fs' & H & _). destruct fuel as [|fuel]; [done|].
  vm_compute in H. discriminate H.
Qed.

(** C2 (amended): on a fresh store with content at [root/foo] and
    [root/bar/baz], [remove] on the root raises [NotFound] and leaves the
    store as it was; when the root has been made a directory first, [remove]
    on the root succeeds, and afterwards neither the root nor [root/foo]
    exists. *)
Theorem C2_remove_root (hi bye : bytes) (fuel : nat) :
  (let fs := with_foo_and_baz hi bye MemoryFS_init in
   ∃ e, remove (1 + fuel) root fs = Some (Raise e, fs) ∧ NotFound e) ∧
  (let fs := with_foo_and_baz hi bye (createDirectory root MemoryFS_init).2 in
   ∃ fs', remove (2 + fuel) root fs = Some (Return tt, fs') ∧
     exists_ root fs' = false ∧ exists_ foo fs' = false).
Proof.
  split.
  - exists (PathError ENOENT []). split; [|done]. vm_compute. reflexivity.
  - eexists. split; [vm_compute; reflexivity|]. split; vm_compute; reflexivity.
Qed.

(** What [remove] on the root directory leaves behind in that scenario:
    [root/bar] is no entry of the store, so [listdir] on the root does not
    lead to [root/bar/baz], whose content stays.  [test_removeDirectory]
    expects it gone. *)
Lemma remove_root_leaves_baz (hi bye : bytes) (fuel : nat) :
  let fs := with_foo_and_baz hi bye (createDirectory root MemoryFS_init).2 in
  ∃ fs', remove (2 + fuel) root fs = Some (Return tt, fs') ∧
    exists_ baz fs' = true ∧ getContent baz fs' = Return bye.
Proof.
  eexists. split; [vm_compute; reflexivity|]. split; vm_compute; reflexivity.
Qed.

(** ** The invariant of the store *)

Lemma store_dirs_disjoint_init : store_dirs_disjoint MemoryFS_init.
Proof. intros l [_ Hl]. simpl in Hl. by apply not_elem_of_empty in Hl. Qed.

Lemma store_dirs_disjoint_insert fs l content :
  l ∉ _dirs fs → store_dirs_disjoint fs →
  store_dirs_disjoint (set_store <[l := content]> fs).
Proof.
  intros Hl Hinv l' [Hs Hd]. simpl in *.
  destruct (decide (l = l')) as [<-|Hne]; [done|].
  rewrite lookup_insert_ne in Hs by done. by apply (Hinv l').
Qed.

(** A call that stores no content on a directory preserves the invariant,
    whether it returns or raises. *)
Lemma exec_preserves_disjoint fuel o w r w' :
  no_content_on_directory o w →
  exec fuel o w = Some (r, w') →
  store_dirs_disjoint (fs w) → store_dirs_disjoint (fs w').
Proof.
  intros Hallowed Hexec Hinv.
  destruct o as [p|p mode|h data|h|p|p c|p|a b]; simpl in *; unfold with_fs in *.
  - destruct (create p (fs w)); simplify_eq/=; done.
  - destruct (open p mode (fs w)); simplify_eq/=; done.
  - destruct (files w !! h) as [f|]; simplify_eq/=.
    destruct (MemoryFile_write data f); simplify_eq/=; done.
  - destruct (files w !! h) as [f|] eqn:Hf; simplify_eq/=.
    specialize (Hallowed f eq_refl). apply in_dirs_false in Hallowed.
    unfold MemoryFile_close in Hexec.
    destruct (closed f); simplify_eq/=; [done|].
    by apply store_dirs_disjoint_insert.
  - unfold createDirectory in Hexec.
    destruct (in_store (_path p) (fs w)) eqn:Hp; simplify_eq/=; [done|].
    apply in_store_false in Hp. intros l [Hs Hd]. simpl in *.
    apply elem_of_union in Hd as [Hd|Hd%elem_of_singleton].
    + by apply (Hinv l).
    + subst. rewrite Hp in Hs. by destruct Hs.
  - simplify_eq/=. apply store_dirs_disjoint_insert; [|done].
    by apply in_dirs_false.
  - destruct (remove fuel p (fs w)) as [[r1 fs1]|] eqn:Hrm; simplify_eq/=.
    apply remove_shrinks in Hrm. by eapply store_dirs_disjoint_shrinks.
  - simplify_eq/=. done.
Qed.

Lemma reachable_run allowed fuel calls : ∀ w,
  reachable allowed w → all_allowed allowed fuel calls w →
  reachable allowed (run fuel calls w).
Proof.
  induction calls as [|o calls IH]; intros w Hw Hcalls; [done|].
  destruct Hcalls as (Ho & [[r w'] Hexec] & Hcalls). unfold run. simpl.
  rewrite Hexec in *. apply IH; [|done]. by eapply reachable_exec.
Qed.

(** C1, as the specification states it, fails: [setContent] at a location
    that [createDirectory] made a directory leaves the location both in the
    content map and in the directory set. *)
Lemma C1_setContent_breaks_invariant :
  ¬ (∀ w, reachable any_call w → store_dirs_disjoint (fs w)).
Proof.
  intros H. apply (H (run 0 setContent_on_directory World_init)) with (l := ["a"]).
  - apply reachable_run; [constructor|]. simpl. by eauto 10.
  - split; [by eexists|]. vm_compute. reflexivity.
Qed.

(** The same happens through a handle: [create] does not reserve the
    location, and [close] stores the buffer without looking at the directory
    set. *)
Lemma close_breaks_invariant :
  reachable any_call (run 0 close_on_directory World_init) ∧
  ¬ store_dirs_disjoint (fs (run 0 close_on_directory World_init)).
Proof.
  split.
  - apply reachable_run; [constructor|]. simpl. by eauto 10.
  - intros H. apply (H ["a"]). split; [by eexists|]. vm_compute. reflexivity.
Qed.

(** C1 (amended): in every world reached from a fresh store by calls of
    [create], [open], write, [close], [createDirectory], [setContent],
    [remove] and [linkTo] among which no [setContent] and no [close] stores
    content at a location that is a directory at that moment, no location is
    both a key of the content map and a member of the directory set. *)
Theorem C1_store_dirs_disjoint w :
  reachable no_content_on_directory w → store_dirs_disjoint (fs w).
Proof.
  induction 1 as [|w fuel o r w' _ IH Hallowed Hexec].
  - apply store_dirs_disjoint_init.
  - by eapply exec_preserves_disjoint.
Qed.

Lemma C1_store_dirs_disjoint_witness :
  store_dirs_disjoint (fs (run 0 file_in_root World_init)).
Proof.
  apply (C1_store_dirs_disjoint (run 0 file_in_root World_init)).
  apply reachable_run; [constructor|]. simpl. by eauto 10.
Defined.

(** * Further properties of the code *)

(** ** Listing a directory *)

Lemma exists_entries self fs :
  exists_ self fs = true ↔ _path self ∈ entries fs.
Proof.
  unfold exists_, isdir, isfile.
  rewrite orb_true_iff, in_dirs_true, in_store_true, elem_of_entries. done.
Qed.

(** The locations [listdir] keeps, in the two halves of the chain. *)
Lemma listdir_halves self fs ks :
  listdir self fs = Return ks →
  ks = last_segment <$>
    (filter (λ t, but_last t = _path self ∧ length t = length (_path self) + 1)
            (elements (_dirs fs))
     ++ filter (λ t, but_last t = _path self ∧ length t = length (_path self) + 1)
               (map_to_list (_store fs)).*1).
Proof.
  unfold listdir. destruct (in_dirs _ _); simpl; [|done].
  intros [= <-]. by rewrite filter_app.
Qed.

Lemma last_segment_inj_on (p : location) (t u : location) :
  but_last t = p ∧ length t = length p + 1 →
  but_last u = p ∧ length u = length p + 1 →
  last_segment t = last_segment u → t = u.
Proof.
  intros [Ht1 Ht2] [Hu1 Hu2] Heq.
  rewrite (direct_child_inv t p), (direct_child_inv u p) by done. by rewrite Heq.
Qed.

Lemma listdir_names self fs :
  if isdir self fs
  then ∃ ks, listdir self fs = Return ks ∧
         ∀ name, name ∈ ks ↔ exists_ (child self name) fs = true
  else listdir self fs = Raise UnlistableError.
Proof.
  destruct (isdir self fs) eqn:Hdir; unfold isdir in Hdir.
  - destruct (listdir self fs) as [ks|e] eqn:Hks.
    + exists ks. split; [done|]. intros name.
      rewrite exists_entries. by apply listdir_elem.
    + unfold listdir in Hks. by rewrite Hdir in Hks.
  - unfold listdir. by rewrite Hdir.
Qed.

(** X1: [listdir] raises [UnlistableError] at every location that is not in
    the directory set, a file included; at a directory it returns the names
    [n] for which [child(n)] exists, and no other. *)
Theorem X1_listdir_names self fs :
  if isdir self fs
  then ∃ ks, listdir self fs = Return ks ∧
         ∀ name, name ∈ ks ↔ exists_ (child self name) fs = true
  else listdir self fs = Raise UnlistableError.
Proof. apply listdir_names. Qed.

(** X2: the listing of a directory has a name twice exactly when the child
    of that name is both in the directory set and in the content map; on a
    store that keeps the two apart, no name is listed twice. *)
Theorem X2_listdir_NoDup self fs ks :
  listdir self fs = Return ks →
  NoDup ks ↔ ∀ name, ¬ (isdir (child self name) fs = true ∧
                        isfile (child self name) fs = true).
Proof.
  intros Hks. rewrite (listdir_halves _ _ _ Hks).
  set (P := λ t : location,
         but_last t = _path self ∧ length t = length (_path self) + 1).
  set (D := filter P (elements (_dirs fs))).
  set (F := filter P (map_to_list (_store fs)).*1).
  assert (NoDup D) as HD by apply NoDup_filter, NoDup_elements.
  assert (NoDup F) as HF by apply NoDup_filter, NoDup_fst_map_to_list.
  assert (∀ t, t ∈ D ↔ P t ∧ t ∈ _dirs fs) as HinD.
  { intros t. unfold D. by rewrite list_elem_of_filter, elem_of_elements. }
  assert (∀ t, t ∈ F ↔ P t ∧ is_Some (_store fs !! t)) as HinF.
  { intros t. unfold F. rewrite list_elem_of_filter. apply and_iff_compat_l. split.
    - intros ([k v] & -> & Hkv%elem_of_map_to_list)%list_elem_of_fmap_1. by eexists.
    - intros [v Hv]. apply (list_elem_of_fmap_2' fst _ (t, v)); [|done].
      by apply elem_of_map_to_list. }
  assert (∀ t, t ∈ D ++ F → P t) as HP.
  { intros t [Ht|Ht]%elem_of_app; [by apply HinD in Ht as [? _]|by apply HinF in Ht as [? _]]. }
  split.
  - intros Hnd%NoDup_fmap_1 name [Hd%in_dirs_true Hf%in_store_true].
    apply NoDup_app in Hnd as (_ & Hdisj & _). simpl in *.
    assert (P (_path self ++ [name])) as HPn.
    { split; [apply but_last_snoc|]. rewrite length_app. done. }
    apply (Hdisj (_path self ++ [name])); [by apply HinD|by apply HinF].
  - intros Hno. apply NoDup_fmap_2_strong.
    + intros t u Ht Hu. eapply last_segment_inj_on; by apply HP.
    + apply NoDup_app. split_and!; [done| |done].
      intros t [HPt Hd]%HinD [_ Hf]%HinF.
      destruct HPt as [Hp Hlen]. apply (Hno (last_segment t)).
      unfold isdir, isfile, child. simpl.
      rewrite <- (direct_child_inv t (_path self) Hp Hlen).
      by rewrite in_dirs_true, in_store_true.
Qed.

Lemma X2_listdir_NoDup_witness :
  NoDup ["foo"] ↔
  ∀ name, ¬ (isdir (child root name) (run 0 file_in_root World_init).(fs) = true ∧
             isfile (child root name) (run 0 file_in_root World_init).(fs) = true).
Proof.
  apply (X2_listdir_NoDup root (fs (run 0 file_in_root World_init)) ["foo"]).
  vm_compute. reflexivity.
Defined.

(** X3: [children] returns path values that all exist, each the child of the
    directory under a name, and every existing child is among them. *)
Theorem X3_children_exist self fs cs c :
  children self fs = Return cs →
  c ∈ cs ↔ exists_ c fs = true ∧ c ≠ self ∧ parent c = self.
Proof.
  intros Hcs. rewrite (children_elem _ _ _ _ Hcs). split.
  - intros (name & -> & Hc). split_and!.
    + by apply exists_entries.
    + intros Heq. apply (f_equal (λ q, length (_path q))) in Heq.
      simpl in Heq. rewrite length_app in Heq. simpl in Heq. lia.
    + apply parent_child.
  - intros (Hc & Hne & Hpar). exists (last_segment (_path c)).
    split; [|by apply exists_entries].
    destruct c as [t]. destruct self as [p]. unfold parent in Hpar. simpl in *.
    destruct t as [|s t]; [done|]. injection Hpar as Hpar.
    unfold child. simpl. f_equal. apply direct_child_inv; [done|].
    rewrite <- Hpar. unfold but_last. rewrite length_take. simpl. lia.
Qed.

Lemma X3_children_exist_witness :
  foo ∈ [foo] ↔
    exists_ foo (fs (run 0 file_in_root World_init)) = true ∧
    foo ≠ root ∧ parent foo = root.
Proof.
  apply (X3_children_exist root (fs (run 0 file_in_root World_init)) [foo] foo).
  vm_compute. reflexivity.
Defined.

(** ** [remove]: what it reaches and when it succeeds *)

Lemma for_each_inv {A} (I : MemoryFS → Prop)
    (body : A → MemoryFS → option (result unit * MemoryFS)) l :
  (∀ x fs r fs', x ∈ l → I fs → body x fs = Some (r, fs') → I fs') →
  ∀ fs r fs', I fs → for_each body l fs = Some (r, fs') → I fs'.
Proof.
  induction l as [|x l IH]; intros Hbody fs r fs' HI H; simpl in H.
  - by simplify_eq.
  - destruct (body x fs) as [[[[]|e] fs1]|] eqn:Hx; [| |done].
    + apply (IH (λ y fsa ra fsb Hy, Hbody y fsa ra fsb (list_elem_of_further _ _ _ Hy))
                fs1 r fs'); [|done].
      apply (Hbody x fs (Return tt) fs1); [by left|done..].
    + simplify_eq. apply (Hbody x fs (Raise e) fs'); [by left|done..].
Qed.

Lemma for_each_app {A} (body : A → MemoryFS → option (result unit * MemoryFS)) l1 l2 fs :
  for_each body (l1 ++ l2) fs =
  match for_each body l1 fs with
  | Some (Return _, fs1) => for_each body l2 fs1
  | other => other
  end.
Proof.
  revert fs. induction l1 as [|x l1 IH]; intros fs; simpl; [done|].
  by destruct (body x fs) as [[[[]|e] fs1]|].
Qed.

Lemma child_not_prefix (p : location) name t :
  ¬ p `prefix_of` t → ¬ (p ++ [name]) `prefix_of` t.
Proof. intros Hp Hc. apply Hp. by eapply prefix_app_l. Qed.

Lemma same_length_not_prefix (t u : location) :
  length t = length u → t ≠ u → ¬ t `prefix_of` u.
Proof. intros Hlen Hne Hpre. apply Hne, prefix_length_eq; [done|lia]. Qed.

(** [remove] leaves every location alone that does not extend its own. *)
Lemma remove_frame fuel : ∀ self fs r fs' t,
  remove fuel self fs = Some (r, fs') →
  ¬ _path self `prefix_of` t →
  (t ∈ _dirs fs' ↔ t ∈ _dirs fs) ∧ _store fs' !! t = _store fs !! t.
Proof.
  induction fuel as [|fuel IH]; intros self fs r fs' t H Ht; [done|]. simpl in H.
  assert (t ≠ _path self) as Hne by (by intros ->).
  destruct (isdir self fs).
  - destruct (children self fs) as [cs|e] eqn:Hcs; [|by simplify_eq].
    assert (∀ r1 fs1, for_each (remove fuel) cs fs = Some (r1, fs1) →
              (t ∈ _dirs fs1 ↔ t ∈ _dirs fs) ∧ _store fs1 !! t = _store fs !! t)
      as Hloop.
    { intros r1 fs1. apply (for_each_inv (λ fs1,
        (t ∈ _dirs fs1 ↔ t ∈ _dirs fs) ∧ _store fs1 !! t = _store fs !! t));
        [|done].
      intros c fsa rc fsb Hc [Hd Hs] Hrm.
      apply (children_elem _ _ _ _ Hcs) in Hc as (name & -> & _).
      destruct (IH _ _ _ _ t Hrm) as [Hd' Hs']; [by apply child_not_prefix|].
      split; [by rewrite Hd'|by rewrite Hs']. }
    destruct (for_each (remove fuel) cs fs) as [[[[]|e] fs1]|]; [| |done].
    + destruct (Hloop _ _ eq_refl) as [Hd Hs].
      destruct (in_dirs _ _); simplify_eq/=; [|done].
      split; [|done]. rewrite elem_of_difference, elem_of_singleton. tauto.
    + simplify_eq. by apply (Hloop (Raise e)).
  - destruct (_store fs !! _path self); simplify_eq/=; [|done].
    split; [done|]. by rewrite lookup_delete_ne.
Qed.

(** [remove] on a directory leaves the directory's own content entry, if
    the store has one, and reaches the statement that drops the marker with
    the marker still there. *)
Lemma remove_directory_loop fuel self fs cs r1 fs1 :
  children self fs = Return cs →
  for_each (remove fuel) cs fs = Some (r1, fs1) →
  (_path self ∈ _dirs fs1 ↔ _path self ∈ _dirs fs) ∧
  _store fs1 !! _path self = _store fs !! _path self.
Proof.
  intros Hcs. apply (for_each_inv (λ fs1,
    (_path self ∈ _dirs fs1 ↔ _path self ∈ _dirs fs) ∧
    _store fs1 !! _path self = _store fs !! _path self)); [|done].
  intros c fsa rc fsb Hc [Hd Hs] Hrm.
  apply (children_elem _ _ _ _ Hcs) in Hc as (name & -> & _).
  destruct (remove_frame _ _ _ _ _ (_path self) Hrm) as [Hd' Hs'].
  { apply prefix_snoc_not. }
  split; [by rewrite Hd'|by rewrite Hs'].
Qed.

Lemma remove_keeps_own_content fuel self fs r fs' :
  isdir self fs = true →
  remove fuel self fs = Some (r, fs') →
  _store fs' !! _path self = _store fs !! _path self.
Proof.
  intros Hdir H. destruct fuel as [|fuel]; [done|]. simpl in H. rewrite Hdir in H.
  destruct (children self fs) as [cs|e] eqn:Hcs; [|by simplify_eq].
  destruct (for_each (remove fuel) cs fs) as [[r1 fs1]|] eqn:Hloop; [|done].
  destruct (remove_directory_loop _ _ _ _ _ _ Hcs Hloop) as [_ Hs].
  destruct r1 as [[]|e]; [|by simplify_eq].
  destruct (in_dirs _ _); by simplify_eq/=.
Qed.

(** The children of a directory, in the two halves of the chain: those
    listed from the directory set, then those listed from the content map. *)
Lemma children_halves self fs cs :
  children self fs = Return cs →
  cs = (mkMemoryPath <$>
          filter (λ t, but_last t = _path self ∧ length t = length (_path self) + 1)
                 (elements (_dirs fs)))
       ++ (mkMemoryPath <$>
          filter (λ t, but_last t = _path self ∧ length t = length (_path self) + 1)
                 (map_to_list (_store fs)).*1).
Proof.
  unfold children. destruct (listdir self fs) as [ks|] eqn:Hks; [|done].
  intros [= <-]. rewrite (listdir_halves _ _ _ Hks), <- fmap_app, <- list_fmap_compose.
  rewrite <- filter_app. apply list_fmap_ext. intros i t Ht.
  apply list_elem_of_lookup_2, list_elem_of_filter in Ht as [[Hp Hlen] _].
  unfold child. simpl. f_equal. symmetry. by apply direct_child_inv.
Qed.

Section remove_loop.
Context (fuel k : nat).
Hypothesis remove_ok : ∀ c fs r fs',
  exists_ c fs = true → remove fuel c fs = Some (r, fs') → r = Return tt.

(** The loop over distinct children that all exist does not raise. *)
Lemma for_each_remove_existing cs :
  NoDup cs → (∀ c, c ∈ cs → length (_path c) = k) →
  ∀ fs r fs', (∀ c, c ∈ cs → exists_ c fs = true) →
    for_each (remove fuel) cs fs = Some (r, fs') → r = Return tt.
Proof using remove_ok.
  induction cs as [|c cs IH]; intros Hnd Hlen fs r fs' Hex H; simpl in H.
  { by simplify_eq. }
  apply NoDup_cons in Hnd as [Hc Hnd].
  destruct (remove fuel c fs) as [[rc fsc]|] eqn:Hrm; [|done].
  rewrite (remove_ok _ _ _ _ (Hex c ltac:(by left)) Hrm) in H.
  apply (IH Hnd (λ c' Hc', Hlen c' (list_elem_of_further _ _ _ Hc')) fsc r fs'); [|done].
  intros c' Hc'. specialize (Hex c' ltac:(by right)).
  destruct (remove_frame _ _ _ _ _ (_path c') Hrm) as [Hd Hs].
  { apply same_length_not_prefix.
    - rewrite (Hlen c), (Hlen c'); [done|by right|by left].
    - intros Heq. apply Hc. destruct c, c'. simpl in Heq. by subst. }
  revert Hex. unfold exists_, isdir, isfile.
  rewrite !orb_true_iff, !in_dirs_true, !in_store_true, Hd, Hs. done.
Qed.

(** The loop over distinct children that are all directories leaves the
    content map as it is at their own locations. *)
Lemma for_each_remove_directories cs :
  NoDup cs → (∀ c, c ∈ cs → length (_path c) = k) →
  ∀ fs r fs', (∀ c, c ∈ cs → _path c ∈ _dirs fs) →
    for_each (remove fuel) cs fs = Some (r, fs') →
    ∀ t, length t = k → _store fs' !! t = _store fs !! t.
Proof using Type.
  induction cs as [|c cs IH]; intros Hnd Hlen fs r fs' Hdirs H t Ht; simpl in H.
  { by simplify_eq. }
  apply NoDup_cons in Hnd as [Hc Hnd].
  destruct (remove fuel c fs) as [[rc fsc]|] eqn:Hrm; [|done].
  assert (_store fsc !! t = _store fs !! t) as Hstep.
  { destruct (decide (t = _path c)) as [->|Hne].
    - eapply remove_keeps_own_content; [|done].
      apply in_dirs_true, Hdirs. by left.
    - eapply remove_frame; [done|]. apply same_length_not_prefix; [|done].
      rewrite Ht. apply Hlen. by left. }
  destruct rc as [[]|e]; [|by simplify_eq].
  rewrite <- Hstep.
  apply (IH Hnd (λ c' Hc', Hlen c' (list_elem_of_further _ _ _ Hc')) fsc r fs'); [|done..].
  intros c' Hc'.
  apply (remove_frame _ _ _ _ _ (_path c') Hrm); [|apply Hdirs; by right].
  apply same_length_not_prefix.
  - rewrite (Hlen c), (Hlen c'); [done|by right|by left].
  - intros Heq. apply Hc. destruct c, c'. simpl in Heq. by subst.
Qed.
End remove_loop.

(** [remove] on a path that exists does not raise. *)
Lemma remove_existing fuel : ∀ self fs r fs',
  exists_ self fs = true → remove fuel self fs = Some (r, fs') → r = Return tt.
Proof.
  induction fuel as [|fuel IH]; intros self fs r fs' Hex H; [done|]. simpl in H.
  destruct (isdir self fs) eqn:Hdir.
  - destruct (children self fs) as [cs|e] eqn:Hcs.
    2:{ unfold children, listdir in Hcs. unfold isdir in Hdir.
        by rewrite Hdir in Hcs. }
    destruct (for_each (remove fuel) cs fs) as [[r1 fs1]|] eqn:Hloop; [|done].
    destruct (remove_directory_loop _ _ _ _ _ _ Hcs Hloop) as [Hd _].
    assert (r1 = Return tt) as ->.
    { pose proof (children_halves _ _ _ Hcs) as Hsplit.
      set (P := λ t : location,
             but_last t = _path self ∧ length t = length (_path self) + 1) in *.
      set (D := mkMemoryPath <$> filter P (elements (_dirs fs))) in *.
      set (F := mkMemoryPath <$> filter P (map_to_list (_store fs)).*1) in *.
      assert (NoDup D) as HD.
      { apply NoDup_fmap_2_strong; [by intros ???? [=]|].
        apply NoDup_filter, NoDup_elements. }
      assert (NoDup F) as HF.
      { apply NoDup_fmap_2_strong; [by intros ???? [=]|].
        apply NoDup_filter, NoDup_fst_map_to_list. }
      assert (∀ c, c ∈ D → length (_path c) = length (_path self) + 1 ∧
                _path c ∈ _dirs fs) as HinD.
      { intros c (t & -> & Ht)%list_elem_of_fmap_1.
        apply list_elem_of_filter in Ht as [[_ ?] ?%elem_of_elements]. done. }
      assert (∀ c, c ∈ F → length (_path c) = length (_path self) + 1 ∧
                is_Some (_store fs !! _path c)) as HinF.
      { intros c (t & -> & Ht)%list_elem_of_fmap_1.
        apply list_elem_of_filter in Ht as [[_ ?] Ht]. split; [done|].
        apply list_elem_of_fmap_1 in Ht as ([t' v] & -> & Hv%elem_of_map_to_list).
        by eexists. }
      subst cs. rewrite for_each_app in Hloop.
      destruct (for_each (remove fuel) D fs) as [[rD fsD]|] eqn:HloopD; [|done].
      assert (rD = Return tt) as ->.
      { eapply (for_each_remove_existing fuel _ IH D HD); [|..|done].
        - intros c Hc. by apply HinD.
        - intros c Hc. apply exists_entries, elem_of_entries. left. by apply HinD. }
      eapply (for_each_remove_existing fuel _ IH F HF); [|..|done].
      + intros c Hc. by apply HinF.
      + intros c Hc. apply exists_entries, elem_of_entries. right.
        destruct (HinF c Hc) as [Hlen Hs].
        erewrite (for_each_remove_directories fuel _ D HD); [done|..|done|done].
        * intros c' Hc'. by apply HinD.
        * intros c' Hc'. by apply HinD. }
    unfold isdir in Hdir. apply in_dirs_true, Hd, in_dirs_true in Hdir.
    rewrite Hdir in H. by simplify_eq.
  - unfold exists_ in Hex. rewrite Hdir in Hex. simpl in Hex.
    apply in_store_true in Hex as [v Hv]. rewrite Hv in H. by simplify_eq.
Qed.

Lemma remove_missing fuel self fs r fs' :
  exists_ self fs = false → remove fuel self fs = Some (r, fs') →
  r = Raise (PathError ENOENT (_path self)) ∧ fs' = fs.
Proof.
  unfold exists_, isfile. intros [Hdir Hfile%in_store_false]%orb_false_iff H.
  destruct fuel as [|fuel]; [done|]. simpl in H. rewrite Hdir, Hfile in H.
  by simplify_eq.
Qed.

(** X4: [remove] returns on every store, normally or by raising: its
    recursion never goes deeper than the number of entries longer than the
    path, and beyond that depth the outcome is one and the same. *)
Theorem X4_remove_terminates self fs :
  ∃ r fs', ∀ fuel,
    deeper (length (_path self)) fs < fuel → remove fuel self fs = Some (r, fs').
Proof.
  destruct (remove_returns self fs) as [[r fs'] H]. by exists r, fs'.
Qed.

(** X5: [remove] returns normally exactly on a path that exists.  On a path
    that is neither a directory nor a file it raises [PathError(ENOENT)] and
    leaves the store as it was; on an existing one it raises nothing, no
    [KeyError] from the directory set and no error from a child either. *)
Theorem X5_remove_raises_iff_missing fuel self fs r fs' :
  remove fuel self fs = Some (r, fs') →
  if exists_ self fs then r = Return tt
  else r = Raise (PathError ENOENT (_path self)) ∧ fs' = fs.
Proof.
  intros H. destruct (exists_ self fs) eqn:Hex.
  - by eapply remove_existing.
  - by eapply remove_missing.
Qed.

Lemma X5_remove_raises_iff_missing_witness :
  let fs := with_foo_and_baz [] [] MemoryFS_init in
  if exists_ root fs then @Raise unit (PathError ENOENT []) = Return tt
  else @Raise unit (PathError ENOENT []) = Raise (PathError ENOENT (_path root))
       ∧ fs = fs.
Proof.
  apply (X5_remove_raises_iff_missing 1 root (with_foo_and_baz [] [] MemoryFS_init)).
  vm_compute. reflexivity.
Defined.

(** X6: whether it returns or raises, [remove] only deletes: it adds no
    directory, every file left has the content it had, and the link map is
    untouched (a link to a removed path stays). *)
Theorem X6_remove_only_deletes fuel self fs r fs' :
  remove fuel self fs = Some (r, fs') →
  (∀ q, isdir q fs' = true → isdir q fs = true) ∧
  (∀ q c, getContent q fs' = Return c → getContent q fs = Return c) ∧
  (∀ q, islink q fs' = islink q fs ∧ realpath q fs' = realpath q fs).
Proof.
  intros (Hd & Hs & Hl & _)%remove_shrinks. split_and!.
  - intros q. unfold isdir. rewrite !in_dirs_true. apply Hd.
  - intros q c. unfold getContent.
    destruct (_store fs' !! _path q) as [c'|] eqn:Hq; [|done].
    intros [= ->]. by rewrite (lookup_weaken _ _ _ _ Hq Hs).
  - intros q. unfold islink, realpath. by rewrite Hl.
Qed.

Lemma X6_remove_only_deletes_witness :
  let fs := with_foo_and_baz [] [] MemoryFS_init in
  let fs' := set_store (delete ["foo"]) fs in
  (∀ q, isdir q fs' = true → isdir q fs = true) ∧
  (∀ q c, getContent q fs' = Return c → getContent q fs = Return c) ∧
  (∀ q, islink q fs' = islink q fs ∧ realpath q fs' = realpath q fs).
Proof.
  apply (X6_remove_only_deletes 1 foo (with_foo_and_baz [] [] MemoryFS_init) (Return tt)).
  vm_compute. reflexivity.
Defined.

(** X7: [remove] stays within the subtree of its path: at a location whose
    segments do not start with the segments of the removed path, directory
    marker and content are what they were. *)
Theorem X7_remove_within_subtree fuel self fs r fs' q :
  remove fuel self fs = Some (r, fs') →
  ¬ _path self `prefix_of` _path q →
  isdir q fs' = isdir q fs ∧ isfile q fs' = isfile q fs ∧
  getContent q fs' = getContent q fs.
Proof.
  intros H Hq. destruct (remove_frame _ _ _ _ _ _ H Hq) as [Hd Hs].
  unfold isdir, isfile, in_dirs, in_store, getContent. rewrite Hs.
  split_and!; [|done..]. by apply bool_decide_ext.
Qed.

Lemma X7_remove_within_subtree_witness :
  let fs := with_foo_and_baz [] [] MemoryFS_init in
  let fs' := set_store (delete ["foo"]) fs in
  isdir baz fs' = isdir baz fs ∧ isfile baz fs' = isfile baz fs ∧
  getContent baz fs' = getContent baz fs.
Proof.
  apply (X7_remove_within_subtree 1 foo
           (with_foo_and_baz [] [] MemoryFS_init) (Return tt)).
  - vm_compute. reflexivity.
  - intros [k Hk]. discriminate Hk.
Defined.

Lemma file_in_root_disjoint :
  store_dirs_disjoint (fs (run 0 file_in_root World_init)).
Proof.
  change (fs (run 0 file_in_root World_init))
    with (set_store <[["foo"] := [Byte.x58]]>
            (set_dirs (λ d, d ∪ {[ [] ]}) MemoryFS_init)).
  apply store_dirs_disjoint_insert.
  - simpl. rewrite elem_of_union, elem_of_singleton.
    intros [[]%not_elem_of_empty|[=]].
  - intros l [[c Hc] _]. simpl in Hc. by rewrite lookup_empty in Hc.
Qed.

(** X9: at a location that is both a directory and a file, which
    [setContent] on a directory produces, one [remove] drops the directory
    marker and keeps the content; the location is a plain file afterwards
    and a second [remove] is needed to delete it. *)
Theorem X9_remove_directory_keeps_file fuel self fs r fs' :
  isdir self fs = true → isfile self fs = true →
  remove fuel self fs = Some (r, fs') →
  r = Return tt ∧ isdir self fs' = false ∧ isfile self fs' = true ∧
  getContent self fs' = getContent self fs.
Proof.
  intros Hdir Hfile H.
  assert (r = Return tt) as ->.
  { eapply remove_existing; [|done]. unfold exists_. by rewrite Hdir. }
  pose proof (remove_keeps_own_content _ _ _ _ _ Hdir H) as Hs.
  split; [done|]. split_and!.
  - destruct fuel as [|fuel]; [done|]. simpl in H. rewrite Hdir in H.
    destruct (children self fs) as [cs|e]; [|done].
    destruct (for_each (remove fuel) cs fs) as [[[[]|e] fs1]|]; [|done..].
    destruct (in_dirs _ _); simplify_eq/=.
    apply in_dirs_false. simpl. rewrite elem_of_difference, elem_of_singleton. tauto.
  - revert Hfile. unfold isfile, in_store. by rewrite Hs.
  - unfold getContent. by rewrite Hs.
Qed.

Lemma X9_remove_directory_keeps_file_witness :
  let fs := fs (run 0 setContent_on_directory World_init) in
  let fs' := set_dirs (λ d, d ∖ {[ ["a"] ]}) fs in
  Return tt = Return tt ∧ isdir dir_a fs' = false ∧ isfile dir_a fs' = true ∧
  getContent dir_a fs' = getContent dir_a fs.
Proof.
  apply (X9_remove_directory_keeps_file 1 dir_a
           (fs (run 0 setContent_on_directory World_init)) (Return tt));
    vm_compute; reflexivity.
Defined.

(** ** Round trips *)

(** X10: [setContent] at a location that does not exist, followed by
    [remove], gives back the store as it was. *)
Theorem X10_setContent_remove fuel self content fs :
  exists_ self fs = false →
  remove (S fuel) self (setContent self content fs).2 = Some (Return tt, fs).
Proof.
  unfold exists_, isdir, isfile.
  intros [Hdir Hfile%in_store_false]%orb_false_iff. simpl.
  unfold isdir. replace (in_dirs _ _) with false by done. simpl.
  rewrite lookup_insert_eq. do 2 f_equal.
  destruct fs as [st ds us ls]. unfold set_store. simpl in *. f_equal.
  rewrite delete_insert_eq. by apply delete_id.
Qed.

Lemma X10_setContent_remove_witness :
  remove 1 foo (setContent foo [Byte.x58] MemoryFS_init).2
  = Some (Return tt, MemoryFS_init).
Proof.
  apply (X10_setContent_remove 0 foo [Byte.x58] MemoryFS_init). reflexivity.
Defined.

Lemma listdir_no_children self fs ks :
  listdir self fs = Return ks →
  (∀ name, exists_ (child self name) fs = false) → ks = [].
Proof.
  intros Hks Hnone. destruct ks as [|name ks]; [done|].
  specialize (Hnone name). apply not_entry_exists in Hnone.
  exfalso. apply Hnone. apply (listdir_elem _ _ _ _ Hks). by left.
Qed.

(** X11: [createDirectory] at a location that does not exist and has no
    existing child, followed by [remove], gives back the store as it was. *)
Theorem X11_createDirectory_remove fuel self fs :
  exists_ self fs = false →
  (∀ name, exists_ (child self name) fs = false) →
  ∃ fs1, createDirectory self fs = (Return tt, fs1) ∧
         remove (S fuel) self fs1 = Some (Return tt, fs).
Proof.
  intros Hex Hnone. pose proof Hex as Hex'.
  unfold exists_, isdir, isfile in Hex'.
  apply orb_false_iff in Hex' as [Hdir%in_dirs_false Hfile].
  unfold createDirectory. rewrite Hfile. eexists. split; [done|].
  set (fs1 := set_dirs (λ d, d ∪ {[_path self]}) fs).
  assert (in_dirs (_path self) fs1 = true) as Hdir1.
  { apply in_dirs_true. simpl. apply elem_of_union_r, elem_of_singleton_2. done. }
  simpl. unfold isdir. rewrite Hdir1.
  destruct (children self fs1) as [cs|e] eqn:Hcs.
  2:{ unfold children, listdir in Hcs. by rewrite Hdir1 in Hcs. }
  assert (cs = []) as ->.
  { unfold children in Hcs. destruct (listdir self fs1) as [ks|] eqn:Hks; [|done].
    rewrite (listdir_no_children _ _ _ Hks) in Hcs; [by simplify_eq|].
    intros name. apply not_entry_exists. rewrite elem_of_entries. simpl.
    specialize (Hnone name). apply not_entry_exists in Hnone.
    rewrite elem_of_entries in Hnone. simpl in Hnone.
    rewrite elem_of_union, elem_of_singleton. intros [[Hd|Heq]|Hs]; [tauto| |tauto].
    apply (f_equal length) in Heq. rewrite length_app in Heq. simpl in Heq. lia. }
  simpl. rewrite Hdir1. do 2 f_equal.
  destruct fs as [st ds us ls]. unfold fs1, set_dirs. simpl in *. f_equal.
  apply set_eq. intros t.
  rewrite elem_of_difference, elem_of_union, elem_of_singleton.
  split; [tauto|]. intros Ht. split; [by left|]. by intros ->.
Qed.

Lemma X11_createDirectory_remove_witness :
  ∃ fs1, createDirectory dir_a MemoryFS_init = (Return tt, fs1) ∧
         remove 1 dir_a fs1 = Some (Return tt, MemoryFS_init).
Proof.
  apply (X11_createDirectory_remove 0 dir_a MemoryFS_init); [reflexivity|].
  intros name. reflexivity.
Defined.

(** ** File handles *)

(** X12: opening a file and closing the handle without writing leaves the
    store as it is: the handle starts with the content of the file and
    [close] writes the same bytes back. *)
Theorem X12_open_close_unchanged (self : MemoryPath) (mode : string) fs content :
  isdir self fs = false →
  getContent self fs = Return content →
  ∃ f f', open self mode fs = Return f ∧ getvalue f = content ∧
          MemoryFile_close f fs = (Return f', fs).
Proof.
  unfold isdir, getContent, open, MemoryFS_open. intros -> Hc.
  destruct (_store fs !! _path self) as [c|] eqn:Hs; [|done]. simplify_eq.
  eexists _, _. split_and!; [done..|].
  unfold MemoryFile_close. simpl. f_equal.
  destruct fs as [st ds us ls]. unfold set_store. simpl in *. f_equal.
  by apply insert_id.
Qed.

Lemma X12_open_close_unchanged_witness :
  let fs := (setContent foo [Byte.x58] MemoryFS_init).2 in
  ∃ f f', open foo "r" fs = Return f ∧ getvalue f = [Byte.x58] ∧
          MemoryFile_close f fs = (Return f', fs).
Proof.
  apply (X12_open_close_unchanged foo "r"
           (setContent foo [Byte.x58] MemoryFS_init).2 [Byte.x58]);
    reflexivity.
Defined.

(** X13: two handles on one location do not see each other: when both are
    closed, the content is the buffer of the one closed last, and the store
    is what closing that one alone would have left. *)
Theorem X13_last_close_wins (f1 f2 : MemoryFile) fs :
  closed f1 = false → closed f2 = false → _target f1 = _target f2 →
  ∃ f1' f2' fs1 fs2,
    MemoryFile_close f1 fs = (Return f1', fs1) ∧
    MemoryFile_close f2 fs1 = (Return f2', fs2) ∧
    getContent (mkMemoryPath (_target f2)) fs2 = Return (getvalue f2) ∧
    fs2 = (MemoryFile_close f2 fs).2.
Proof.
  intros Hc1 Hc2 Ht. unfold MemoryFile_close. rewrite Hc1, Hc2.
  eexists _, _, _, _. split_and!; [done..| |].
  - unfold getContent. simpl. by rewrite lookup_insert_eq.
  - simpl. unfold set_store. simpl. f_equal. rewrite Ht. apply insert_insert_eq.
Qed.

Lemma X13_last_close_wins_witness :
  ∃ f1' f2' fs1 fs2,
    MemoryFile_close (MemoryFile_init ["a"] [Byte.x58]) MemoryFS_init = (Return f1', fs1) ∧
    MemoryFile_close (MemoryFile_init ["a"] [Byte.x59]) fs1 = (Return f2', fs2) ∧
    getContent (mkMemoryPath ["a"]) fs2 = Return [Byte.x59] ∧
    fs2 = (MemoryFile_close (MemoryFile_init ["a"] [Byte.x59]) MemoryFS_init).2.
Proof.
  apply (X13_last_close_wins (MemoryFile_init ["a"] [Byte.x58])
           (MemoryFile_init ["a"] [Byte.x59]) MemoryFS_init); reflexivity.
Defined.

(** X14: a handle from [open] starts at position 0 over the content of the
    file.  Writing [data] and closing stores [data] followed by what the old
    content has beyond the length of [data]: the write overwrites from the
    start and does not truncate.  At a location without content the stored
    content is [data]. *)
Theorem X14_open_write_close (self : MemoryPath) (mode : string) (data : bytes) fs :
  isdir self fs = false →
  ∃ f f1 f2 fs',
    open self mode fs = Return f ∧
    MemoryFile_write data f = Return f1 ∧
    MemoryFile_close f1 fs = (Return f2, fs') ∧
    getContent self fs' =
      Return (data ++ drop (length data) (default [] (_store fs !! _path self))).
Proof.
  unfold isdir, open, MemoryFS_open. intros ->.
  assert (∃ f, match _store fs !! _path self with
               | Some content => Return (MemoryFile_init (_path self) content)
               | None => Return (MemoryFile_init (_path self) [])
               end = Return f ∧
               f = MemoryFile_init (_path self) (default [] (_store fs !! _path self)))
    as (f & -> & ->).
  { destruct (_store fs !! _path self); by eexists. }
  eexists _, _, _, _. split_and!; [done..|].
  unfold getContent. simpl. by rewrite lookup_insert_eq.
Qed.

Lemma X14_open_write_close_witness :
  let fs := (setContent foo [Byte.x58; Byte.x59] MemoryFS_init).2 in
  ∃ f f1 f2 fs',
    open foo "w" fs = Return f ∧
    MemoryFile_write [Byte.x5a] f = Return f1 ∧
    MemoryFile_close f1 fs = (Return f2, fs') ∧
    getContent foo fs' =
      Return ([Byte.x5a] ++ drop 1 (default [] (_store fs !! _path foo))).
Proof.
  apply (X14_open_write_close foo "w" [Byte.x5a]
           (setContent foo [Byte.x58; Byte.x59] MemoryFS_init).2).
  reflexivity.
Defined.

(** ** Writing content *)

(** X15: [setContent] touches one entry of the content map and nothing
    else: the content of every other path, the directory set and the links
    are what they were.  It creates no directory, so the parent of the new
    file need not exist; and a second [setContent] replaces the first. *)
Theorem X15_setContent_frame (self : MemoryPath) (b1 b2 : bytes) fs :
  let fs' := (setContent self b1 fs).2 in
  (∀ q, q ≠ self → getContent q fs' = getContent q fs) ∧
  (∀ q, isdir q fs' = isdir q fs ∧ islink q fs' = islink q fs) ∧
  (setContent self b2 fs').2 = (setContent self b2 fs).2.
Proof.
  simpl. split_and!.
  - intros q Hq. unfold getContent. simpl. rewrite lookup_insert_ne; [done|].
    intros Heq. apply Hq. destruct q, self. simpl in Heq. by subst.
  - done.
  - unfold set_store. simpl. f_equal. apply insert_insert_eq.
Qed.

(** X16: a file or a directory made directly under a directory shows in the
    listing of that directory. *)
Theorem X16_new_child_is_listed (self : MemoryPath) (name : string) (b : bytes) fs :
  isdir self fs = true →
  (∃ ks, listdir self (setContent (child self name) b fs).2 = Return ks ∧ name ∈ ks) ∧
  (isfile (child self name) fs = false →
   ∃ ks, listdir self (createDirectory (child self name) fs).2 = Return ks ∧ name ∈ ks).
Proof.
  intros Hdir. split.
  - pose proof (listdir_names self (setContent (child self name) b fs).2) as H.
    replace (isdir self _) with true in H by done.
    destruct H as (ks & Hks & Hin). exists ks. split; [done|]. apply Hin.
    unfold exists_, isfile. replace (in_store _ _) with true; [apply orb_true_r|].
    symmetry. apply in_store_true. simpl. rewrite lookup_insert_eq. by eexists.
  - intros Hfile.
    pose proof (listdir_names self (createDirectory (child self name) fs).2) as H.
    unfold createDirectory in *. unfold isfile in Hfile. rewrite Hfile in *. simpl in *.
    replace (isdir self _) with true in H.
    2:{ symmetry. apply in_dirs_true. simpl. apply elem_of_union_l.
        by apply in_dirs_true. }
    destruct H as (ks & Hks & Hin). exists ks. split; [done|]. apply Hin.
    unfold exists_, isdir. replace (in_dirs _ _) with true; [done|].
    symmetry. apply in_dirs_true. simpl. apply elem_of_union_r, elem_of_singleton_2. done.
Qed.

Lemma X16_new_child_is_listed_witness :
  let fs := (createDirectory root MemoryFS_init).2 in
  (∃ ks, listdir root (setContent (child root "f") [] fs).2 = Return ks ∧ "f" ∈ ks) ∧
  (isfile (child root "f") fs = false →
   ∃ ks, listdir root (createDirectory (child root "f") fs).2 = Return ks ∧ "f" ∈ ks).
Proof.
  apply (X16_new_child_is_listed root "f" [] (createDirectory root MemoryFS_init).2).
  reflexivity.
Defined.

(** ** Navigation *)

(** X17: [descendant] is repeated [child]: the path value reached does not
    depend on whether the segments are appended one by one or at once. *)
Theorem X17_descendant_child (self : MemoryPath) (segments : list string) :
  descendant self segments = foldl child self segments ∧
  descendant self [] = self.
Proof.
  split.
  - revert self. induction segments as [|s segments IH]; intros self; simpl.
    + unfold descendant. rewrite app_nil_r. by destruct self.
    + rewrite <- IH. unfold descendant, child. simpl. by rewrite <- app_assoc.
  - unfold descendant. rewrite app_nil_r. by destruct self.
Qed.

(** X18: a sibling has the parent of the path it is taken from and the
    segment asked for as its name; the sibling of a child under another name
    is the other child, and a sibling of the root is a child of the root. *)
Theorem X18_sibling (self : MemoryPath) (name segment : string) :
  parent (sibling self segment) = parent self ∧
  basename (sibling self segment) = segment ∧
  sibling (child self name) segment = child self segment ∧
  sibling root segment = child root segment.
Proof.
  unfold sibling. split_and!.
  - apply parent_child.
  - unfold basename, child. simpl.
    destruct (_path (parent self) ++ [segment]) eqn:E.
    + by destruct (_path (parent self)).
    + rewrite <- E. apply last_segment_snoc.
  - by rewrite parent_child.
  - done.
Qed.

Lemma string_app_assoc (s1 s2 s3 : string) : (s1 +:+ s2) +:+ s3 = s1 +:+ s2 +:+ s3.
Proof.
  induction s1 as [|a s1 IH]; [done|].
  change (String a ((s1 +:+ s2) +:+ s3) = String a (s1 +:+ s2 +:+ s3)).
  by rewrite IH.
Qed.

Lemma join_snoc sep0 (x : string) l y :
  join sep0 ((x :: l) ++ [y]) = join sep0 (x :: l) +:+ sep0 +:+ y.
Proof.
  revert x. induction l as [|z l IH]; intros x; [done|].
  change (x +:+ sep0 +:+ join sep0 ((z :: l) ++ [y])
          = (x +:+ sep0 +:+ join sep0 (z :: l)) +:+ sep0 +:+ y).
  by rewrite IH, !string_app_assoc.
Qed.

(** X19: the display path of the root is ["/mem"] and that of a child is the
    display path of its parent, the separator and the name; [dirname] of a
    child is the display path of the parent and [basename] its name, while
    [basename] of the root is empty. *)
Theorem X19_child_path (self : MemoryPath) (name : string) :
  path root = "/mem" ∧
  path (child self name) = path self +:+ "/" +:+ name ∧
  dirname (child self name) = path self ∧
  basename (child self name) = name ∧
  basename root = "".
Proof.
  split_and!; [done| | | |done].
  - unfold path, format_memory_path, child. simpl _path.
    apply (join_snoc sep "/mem" (_path self) name).
  - unfold dirname. by rewrite parent_child.
  - unfold basename, child. simpl.
    destruct (_path self ++ [name]) eqn:E.
    + by destruct (_path self).
    + rewrite <- E. apply last_segment_snoc.
Qed.

(** ** Links *)

(** X20: [realpath] looks a path up in the link map once and does not follow
    the result: after [a.linkTo(b)] and [b.linkTo(c)], [c.realpath()] is the
    display path of [b], although [b] is itself a link that resolves to
    [a]. *)
Theorem X20_realpath_one_step (a b c : MemoryPath) fs :
  b ≠ c →
  let fs' := (linkTo b c (linkTo a b fs).2).2 in
  realpath c fs' = path b ∧ islink b fs' = true ∧ realpath b fs' = path a.
Proof.
  intros Hbc. simpl. unfold realpath, islink. simpl. split_and!.
  - by rewrite lookup_insert_eq.
  - apply bool_decide_eq_true. rewrite lookup_insert_ne by done.
    rewrite lookup_insert_eq. by eexists.
  - rewrite lookup_insert_ne by done. by rewrite lookup_insert_eq.
Qed.

Lemma X20_realpath_one_step_witness :
  let fs' := (linkTo foo dir_a (linkTo root foo MemoryFS_init).2).2 in
  realpath dir_a fs' = path foo ∧ islink foo fs' = true ∧ realpath foo fs' = path root.
Proof.
  apply (X20_realpath_one_step root foo dir_a MemoryFS_init). discriminate.
Defined.

(** X21: [linkTo] looks at nothing and changes one entry of the link map: it
    succeeds whether or not either path exists, leaves directories and
    content alone, leaves every other path value's link alone, and replaces
    an earlier link recorded for the same path value. *)
Theorem X21_linkTo_frame (a1 a2 b : MemoryPath) fs :
  let fs1 := (linkTo a1 b fs).2 in
  let fs2 := (linkTo a2 b fs1).2 in
  (linkTo a1 b fs).1 = Return tt ∧
  (∀ q, isdir q fs1 = isdir q fs ∧ getContent q fs1 = getContent q fs) ∧
  (∀ q, q ≠ b → islink q fs1 = islink q fs ∧ realpath q fs1 = realpath q fs) ∧
  realpath b fs2 = path a2 ∧ fs2 = (linkTo a2 b fs).2.
Proof.
  simpl. split_and!; [done|done| | |].
  - intros q Hq. unfold islink, realpath. simpl. by rewrite lookup_insert_ne.
  - unfold realpath. simpl. by rewrite lookup_insert_eq.
  - unfold set_links. simpl. f_equal. apply insert_insert_eq.
Qed.

(** ** The read-only wrapper over the in-memory backend *)

(** X22: the wrapper refuses [open] in a writing mode without asking the
    wrapped path, but in any other mode it hands out the handle of
    [MemoryPath.open], and closing that handle writes to the store: at a
    location that does not exist, [open] through the wrapper followed by
    [close] creates an empty file. *)
Theorem X22_readonly_open_close_writes
    (modeIsWriting : string → bool) (mode : string) (p : MemoryPath) fs :
  exists_ p fs = false →
  if modeIsWriting mode
  then ReadOnly.open modeIsWriting (ReadOnly.wrap p) mode fs
       = Raise (Exception "Path is read-only")
  else ∃ f f' fs',
    ReadOnly.open modeIsWriting (ReadOnly.wrap p) mode fs = Return f ∧
    MemoryFile_close f fs = (Return f', fs') ∧
    isfile p fs = false ∧ isfile p fs' = true ∧ getContent p fs' = Return [].
Proof.
  unfold exists_, isdir, isfile. intros [Hdir Hfile]%orb_false_iff.
  unfold ReadOnly.open. destruct (modeIsWriting mode); [done|].
  simpl. unfold open, MemoryFS_open. rewrite Hdir.
  pose proof Hfile as Hnone%in_store_false. rewrite Hnone.
  eexists _, _, _. split_and!; [done|reflexivity|done|..].
  - apply in_store_true. simpl. rewrite lookup_insert_eq. by eexists.
  - unfold getContent. simpl. by rewrite lookup_insert_eq.
Qed.

Lemma X22_readonly_open_close_writes_witness :
  ∃ f f' fs',
    ReadOnly.open (λ _, false) (ReadOnly.wrap foo) "r" MemoryFS_init = Return f ∧
    MemoryFile_close f MemoryFS_init = (Return f', fs') ∧
    isfile foo MemoryFS_init = false ∧ isfile foo fs' = true ∧
    getContent foo fs' = Return [].
Proof.
  apply (X22_readonly_open_close_writes (λ _, false) "r" foo MemoryFS_init).
  reflexivity.
Defined.

(** ** Ancestors, by membership *)

Lemma prefix_snoc_iff (l q : location) x :
  l `prefix_of` q ++ [x] ↔ l = q ++ [x] ∨ l `prefix_of` q.
Proof.
  split.
  - intros [k Hk]. destruct (decide (k = [])) as [->|Hne].
    + left. by rewrite app_nil_r in Hk.
    + right. destruct (exists_last Hne) as (k' & y & ->).
      rewrite app_assoc in Hk. apply app_inj_tail in Hk as [-> _]. by exists k'.
  - intros [->|H]; [done|]. by apply prefix_app_r.
Qed.

(** X23: the ancestors [genericParents] yields are exactly the path values
    whose segments are a proper prefix of the segments of the path; the path
    itself is not among them, and the root has none. *)
Theorem X23_ancestors_are_proper_prefixes (self a : MemoryPath) :
  a ∈ genericParents self ↔ _path a `prefix_of` _path self ∧ a ≠ self.
Proof.
  destruct self as [l]. revert a.
  induction l as [|x l IH] using rev_ind; intros a.
  - change (genericParents (mkMemoryPath [])) with (@nil MemoryPath). simpl. split.
    + by intros ?%elem_of_nil.
    + intros [Ha%prefix_nil_inv Hne]. destruct a. simpl in *. by subst.
  - change (mkMemoryPath (l ++ [x])) with (child (mkMemoryPath l) x).
    rewrite genericParents_child, elem_of_cons, IH. simpl.
    rewrite prefix_snoc_iff. split.
    + intros [->|[Hpre Hne]].
      * split; [by right|]. intros [= Heq].
        apply (f_equal length) in Heq. rewrite length_app in Heq. simpl in Heq. lia.
      * split; [by right|]. intros ->. simpl in Hpre. by apply prefix_snoc_not in Hpre.
    + intros [[Heq|Hpre] Hne].
      * exfalso. apply Hne. destruct a. simpl in *. by subst.
      * destruct (decide (a = mkMemoryPath l)) as [->|Hal]; [by left|by right].
Qed.

(** ** How far the recursion of [remove] goes *)

Lemma prefix_snoc_same (p u : location) n1 n2 :
  (p ++ [n1]) `prefix_of` u → (p ++ [n2]) `prefix_of` u → n1 = n2.
Proof.
  intros [k1 ->] [k2 Hk]. rewrite <- !app_assoc in Hk.
  apply app_inv_head in Hk. by injection Hk.
Qed.

(** In a loop that returned normally, each child was removed, on a store
    that differs from the first one only below the other children. *)
Lemma for_each_remove_reaches fuel cs : ∀ fs fs1 c,
  for_each (remove fuel) cs fs = Some (Return tt, fs1) → c ∈ cs →
  ∃ fsi fsj,
    remove fuel c fsi = Some (Return tt, fsj) ∧
    shrinks fs fsi ∧ shrinks fsj fs1 ∧
    ∀ u, (∀ c', c' ∈ cs → c' ≠ c → ¬ _path c' `prefix_of` u) →
         (u ∈ _dirs fsi ↔ u ∈ _dirs fs) ∧ _store fsi !! u = _store fs !! u.
Proof.
  induction cs as [|c0 cs IH]; intros fs fs1 c H Hc; [by inv Hc|]. simpl in H.
  destruct (remove fuel c0 fs) as [[[[]|e] fsa]|] eqn:Hc0; [|done|done].
  destruct (decide (c0 = c)) as [->|Hne].
  - exists fs, fsa. split_and!; [done|apply shrinks_refl| |done].
    eapply for_each_shrinks; [|done]. apply remove_shrinks.
  - apply elem_of_cons in Hc as [->|Hc]; [done|].
    destruct (IH fsa fs1 c H Hc) as (fsi & fsj & Hrm & Hsa & Hsj & Hframe).
    exists fsi, fsj. split_and!; [done| |done|].
    + eapply shrinks_trans; [|done]. by eapply remove_shrinks.
    + intros u Hu.
      destruct (Hframe u) as [Hd Hs].
      { intros c' Hc'. apply Hu. by right. }
      destruct (remove_frame _ _ _ _ _ u Hc0) as [Hd0 Hs0].
      { apply Hu; [by left|done]. }
      split; [by rewrite Hd, Hd0|by rewrite Hs, Hs0].
Qed.

(** After a [remove] that returned normally, a location below the path is
    gone when every location between them is a directory. *)
Lemma remove_chain_gone fuel : ∀ self fs fs' t,
  store_dirs_disjoint fs →
  remove fuel self fs = Some (Return tt, fs') →
  _path self `prefix_of` t →
  (∀ u, _path self `prefix_of` u → u `prefix_of` t → u ≠ t → u ∈ _dirs fs) →
  t ∉ entries fs'.
Proof.
  induction fuel as [|fuel IH]; intros self fs fs' t Hinv H Hpre Hchain; [done|].
  destruct (decide (t = _path self)) as [->|Hne].
  { by eapply remove_self_gone. }
  destruct Hpre as [k ->]. destruct k as [|name rest].
  { by rewrite app_nil_r in Hne. }
  assert (_path self ∈ _dirs fs) as Hdir.
  { apply Hchain; [done|by eexists|done]. }
  simpl in H. unfold isdir in H.
  rewrite (proj2 (in_dirs_true _ _) Hdir) in H.
  destruct (children self fs) as [cs|e] eqn:Hcs; [|done].
  destruct (for_each (remove fuel) cs fs) as [[[[]|e] fs1]|] eqn:Hloop; [|done|done].
  assert (_path self ++ name :: rest ∉ entries fs1) as Hgone.
  { destruct (decide (_path (child self name) ∈ entries fs)) as [Hin|Hout].
    - assert (child self name ∈ cs) as Hc.
      { apply (children_elem _ _ _ _ Hcs). by exists name. }
      destruct (for_each_remove_reaches _ _ _ _ _ Hloop Hc)
        as (fsi & fsj & Hrm & Hsi & Hsj & Hframe).
      intros Ht. apply (shrinks_entries _ _ Hsj) in Ht. revert Ht.
      apply (IH (child self name) fsi fsj); [|done|..].
      + by eapply store_dirs_disjoint_shrinks.
      + exists rest. simpl. by rewrite <- app_assoc.
      + intros u Hcu Hut Hu. apply Hframe.
        * intros c' (name' & -> & _)%(children_elem _ _ _ _ Hcs) Hc' Hpre'.
          apply Hc'. f_equal. simpl in *. eapply prefix_snoc_same; done.
        * apply Hchain; [|done..]. simpl in Hcu. by eapply prefix_app_l.
    - destruct rest as [|s rest].
      + intros Ht. by apply Hout, (shrinks_entries fs fs1);
          [eapply for_each_shrinks; [apply remove_shrinks|done]|].
      + exfalso. apply Hout. apply elem_of_entries. left. simpl.
        apply Hchain.
        * by apply prefix_app_r.
        * exists (s :: rest). by rewrite <- app_assoc.
        * intros Heq. apply (f_equal length) in Heq.
          rewrite !length_app in Heq. simpl in Heq. lia. }
  destruct (in_dirs _ _); simplify_eq/=.
  intros Hin. apply Hgone. revert Hin. rewrite !elem_of_entries. simpl.
  intros [[Hd _]%elem_of_difference|Hf]; [by left|by right].
Qed.

(** X8: [remove] deletes recursively along directories.  On a store in
    which no location is both a file and a directory, after a [remove] that
    returned normally a path below the removed one does not exist, provided
    every path from the removed one down to its parent was a directory. *)
Theorem X8_remove_recursive fuel (self q : MemoryPath) fs fs' :
  store_dirs_disjoint fs →
  remove fuel self fs = Some (Return tt, fs') →
  _path self `prefix_of` _path q →
  (∀ u, _path self `prefix_of` _path u → _path u `prefix_of` _path q → u ≠ q →
        isdir u fs = true) →
  exists_ q fs' = false.
Proof.
  intros Hinv H Hpre Hchain. apply not_entry_exists.
  eapply remove_chain_gone; [done..|].
  intros u Hu1 Hu2 Hu3. apply in_dirs_true.
  apply (Hchain (mkMemoryPath u)); [done..|]. intros <-. done.
Qed.

Lemma X8_remove_recursive_witness :
  exists_ foo MemoryFS_init = false.
Proof.
  apply (X8_remove_recursive 2 root foo (fs (run 0 file_in_root World_init))).
  - apply file_in_root_disjoint.
  - vm_compute. reflexivity.
  - apply prefix_nil.
  - intros [u] _ Hu Hne. simpl in Hu.
    destruct Hu as [k Hk]. destruct u as [|s u].
    + reflexivity.
    + exfalso. apply Hne. change (["foo"] = s :: (u ++ k)) in Hk.
      injection Hk as <- Hk. symmetry in Hk. by apply app_eq_nil in Hk as [-> _].
Defined.

(** X24: [remove] does not reach below a name that is no entry of the store:
    when [child(name)] does not exist, every path at or below it keeps its
    directory marker and its content, whatever [remove] on the path does. *)
Theorem X24_remove_skips_unlisted fuel (self q : MemoryPath) (name : string) fs r fs' :
  remove fuel self fs = Some (r, fs') →
  exists_ (child self name) fs = false →
  _path (child self name) `prefix_of` _path q →
  isdir q fs' = isdir q fs ∧ isfile q fs' = isfile q fs ∧
  getContent q fs' = getContent q fs.
Proof.
  intros H Hex%not_entry_exists Hq.
  assert ((_path q ∈ _dirs fs' ↔ _path q ∈ _dirs fs) ∧
          _store fs' !! _path q = _store fs !! _path q) as [Hd Hs].
  { assert (_path q ≠ _path self) as Hne.
    { intros Heq. rewrite Heq in Hq. simpl in Hq. by apply prefix_snoc_not in Hq. }
    destruct fuel as [|fuel]; [done|]. simpl in H.
    destruct (isdir self fs).
    - destruct (children self fs) as [cs|e] eqn:Hcs; [|by simplify_eq].
      assert (∀ r1 fs1, for_each (remove fuel) cs fs = Some (r1, fs1) →
                (_path q ∈ _dirs fs1 ↔ _path q ∈ _dirs fs) ∧
                _store fs1 !! _path q = _store fs !! _path q) as Hloop.
      { intros r1 fs1. apply (for_each_inv (λ fs1,
          (_path q ∈ _dirs fs1 ↔ _path q ∈ _dirs fs) ∧
          _store fs1 !! _path q = _store fs !! _path q)); [|done].
        intros c fsa rc fsb Hc [Hd Hs] Hrm.
        apply (children_elem _ _ _ _ Hcs) in Hc as (name' & -> & Hin).
        destruct (remove_frame _ _ _ _ _ (_path q) Hrm) as [Hd' Hs'].
        { intros Hpre. simpl in *.
          rewrite (prefix_snoc_same _ _ _ _ Hpre Hq) in Hin. done. }
        split; [by rewrite Hd'|by rewrite Hs']. }
      destruct (for_each (remove fuel) cs fs) as [[[[]|e] fs1]|]; [| |done].
      + destruct (Hloop _ _ eq_refl) as [Hd Hs].
        destruct (in_dirs _ _); simplify_eq/=; [|done].
        split; [|done]. rewrite elem_of_difference, elem_of_singleton. tauto.
      + simplify_eq. by apply (Hloop (Raise e)).
    - destruct (_store fs !! _path self); simplify_eq/=; [|done].
      split; [done|]. by rewrite lookup_delete_ne. }
  unfold isdir, isfile, in_dirs, in_store, getContent. rewrite Hs.
  split_and!; [|done..]. by apply bool_decide_ext.
Qed.

Lemma X24_remove_skips_unlisted_witness :
  let fs := with_foo_and_baz [] [Byte.x58] (createDirectory root MemoryFS_init).2 in
  let fs' := set_store <[["bar"; "baz"] := [Byte.x58]]> MemoryFS_init in
  isdir baz fs' = isdir baz fs ∧ isfile baz fs' = isfile baz fs ∧
  getContent baz fs' = getContent baz fs.
Proof.
  apply (X24_remove_skips_unlisted 2 root baz "bar"
           (with_foo_and_baz [] [Byte.x58] (createDirectory root MemoryFS_init).2)
           (Return tt)).
  - vm_compute. reflexivity.
  - reflexivity.
  - by exists ["baz"].
Defined.
